(** * http-from-scratch: the header table and the incremental request parser

    A shallow embedding of [internal/headers/headers.go] and of the request
    parser ([package request]: [parseRequestLine], [Request.parse],
    [RequestFromReader]), with the properties of the specification stated
    over it.

    Conventions.
    - A Go [string] and a Go [[]byte] are both a [list ascii]: a sequence of
      8-bit bytes.  [string(b)] and [[]byte(s)] are the identity.
    - Byte counts ([read], [idx], [len(..)]) are lengths of slices held in
      memory; they are never negative and never wrap, and are [nat].  The
      one integer read from the input, the Content-Length, is a [Z] in the
      range of Go's 64-bit [int].
    - A Go map is a [gmap].  [Headers] holds a map, which Go shares by
      reference: what [Set] writes through a copy of the struct is seen by
      every holder, so a call returns the table it leaves behind.
    - [bytes.Index] returns [None] where Go returns [-1]. *)

From Stdlib Require Import ZArith Lia Ascii String.
From stdpp Require Import gmap strings list.

Local Open Scope Z_scope.
Local Open Scope nat_scope.

(** ** Byte literals *)

Definition CR : ascii := "013"%char.
Definition LF : ascii := "010"%char.

(** [lit] reads a literal the way Go's source does: [\r] and [\n] are the
    carriage return and the line feed, every other character is itself. *)
Fixpoint lit (s : string) : list ascii :=
  match s with
  | EmptyString => []
  | String "\"%char (String "r"%char s') => CR :: lit s'
  | String "\"%char (String "n"%char s') => LF :: lit s'
  | String c s' => c :: lit s'
  end.

Definition code (c : ascii) : N := N_of_ascii c.

(** [utf8.RuneSelf]: bytes below it are one-byte runes. *)
Definition RuneSelf : N := 128%N.

Definition isASCII (c : ascii) : bool := (code c <? RuneSelf)%N.

(** ** The parts of Go's standard library the program calls *)

(** What Go decides by Unicode tables on input that is not ASCII.
    [mapToLower] is [strings.Map(unicode.ToLower, s)], [trimFuncSpace] is
    [bytes.TrimFunc(s, unicode.IsSpace)].  The program is verified for every
    such pair of functions. *)
Class UnicodeTables := {
  mapToLower : list ascii → list ascii;
  trimFuncSpace : list ascii → list ascii
}.

Definition isUpper (c : ascii) : bool :=
  (code "A" <=? code c)%N && (code c <=? code "Z")%N.

Definition lowerByte (c : ascii) : ascii :=
  if isUpper c then ascii_of_N (code c + 32) else c.

(** [strings.ToLower]: bytewise on ASCII input, by the Unicode tables
    otherwise. *)
Definition strings_ToLower `{UnicodeTables} (s : list ascii) : list ascii :=
  if forallb isASCII s then
    if existsb isUpper s then map lowerByte s else s
  else mapToLower s.

(** [bytes.HasPrefix]. *)
Fixpoint bytes_HasPrefix (s prefix : list ascii) {struct prefix} : bool :=
  match prefix, s with
  | [], _ => true
  | _ :: _, [] => false
  | p :: prefix', c :: s' => bool_decide (p = c) && bytes_HasPrefix s' prefix'
  end.

(** [bytes.HasSuffix]. *)
Definition bytes_HasSuffix (s suffix : list ascii) : bool :=
  bool_decide (length suffix ≤ length s) &&
  bool_decide (drop (length s - length suffix) s = suffix).

(** [bytes.Index]: the index of the first instance of [sep] in [s]. *)
Fixpoint bytes_Index (s sep : list ascii) : option nat :=
  if bytes_HasPrefix s sep then Some 0
  else match s with
       | [] => None
       | _ :: s' => S <$> bytes_Index s' sep
       end.

(** [bytes.Cut]: [s] around the first instance of [sep]. *)
Definition bytes_Cut (s sep : list ascii) : list ascii * list ascii * bool :=
  match bytes_Index s sep with
  | Some i => (take i s, drop (i + length sep) s, true)
  | None => (s, [], false)
  end.

(** [bytes.Split] for a separator that is not empty: the pieces of [s]
    between the instances of [sep], found left to right.  [skip] counts the
    bytes of a separator still to be passed over, [cur] is the piece being
    read, last byte first. *)
Fixpoint split_from (sep : list ascii) (skip : nat) (cur s : list ascii)
  : list (list ascii) :=
  match s with
  | [] => [rev cur]
  | c :: s' =>
      match skip with
      | S k => split_from sep k cur s'
      | O =>
          if bytes_HasPrefix s sep
          then rev cur :: split_from sep (length sep - 1) [] s'
          else split_from sep 0 (c :: cur) s'
      end
  end.

Definition bytes_Split (s sep : list ascii) : list (list ascii) :=
  split_from sep 0 [] s.

(** The table [asciiSpace] of package [bytes]. *)
Definition asciiSpace (c : ascii) : bool :=
  match c with
  | "009" | "010" | "011" | "012" | "013" | " " => true
  | _ => false
  end%char.

(** [bytes.TrimSpace]: the ASCII fast path from both ends; a byte that is
    not ASCII met on the way hands what is left to the Unicode-aware
    [TrimFunc]. *)
Fixpoint trimLeft `{UnicodeTables} (s : list ascii) : list ascii + list ascii :=
  match s with
  | [] => inr []
  | c :: s' =>
      if negb (isASCII c) then inl (trimFuncSpace s)
      else if asciiSpace c then trimLeft s'
      else inr s
  end.

(** [trimRight] works on the reversed slice [r]. *)
Fixpoint trimRight `{UnicodeTables} (r : list ascii) : list ascii :=
  match r with
  | [] => []
  | c :: r' =>
      if negb (isASCII c) then trimFuncSpace (rev r)
      else if asciiSpace c then trimRight r'
      else rev r
  end.

Definition bytes_TrimSpace `{UnicodeTables} (s : list ascii) : list ascii :=
  match trimLeft s with
  | inl t => t
  | inr s' => trimRight (rev s')
  end.

(** [strconv.Atoi]: an optional sign and at least one decimal digit, and a
    value that fits Go's 64-bit [int]; anything else is an error. *)
Definition digit (c : ascii) : option Z :=
  if (code "0" <=? code c)%N && (code c <=? code "9")%N
  then Some (Z.of_N (code c - code "0")) else None.

Fixpoint digits (acc : Z) (s : list ascii) : option Z :=
  match s with
  | [] => Some acc
  | c :: s' => d ← digit c; digits (10 * acc + d)%Z s'
  end.

Definition minInt : Z := (- 2 ^ 63)%Z.
Definition maxInt : Z := (2 ^ 63 - 1)%Z.

Definition inInt (z : Z) : bool := (minInt <=? z)%Z && (z <=? maxInt)%Z.

Definition strconv_Atoi (s : list ascii) : option Z :=
  let '(neg, ds) :=
    match s with
    | "-"%char :: ds => (true, ds)
    | "+"%char :: ds => (false, ds)
    | _ => (false, s)
    end in
  match ds with
  | [] => None
  | _ =>
      v ← digits 0 ds;
      let v := if neg : bool then (- v)%Z else v in
      if inInt v then Some v else None
  end.

(** Go's subtraction on [int]: the result wraps at 64 bits. *)
Definition wrapInt (z : Z) : Z := ((z - minInt) mod 2 ^ 64 + minInt)%Z.

(** ** Package headers *)

Abbreviation Headers := (gmap (list ascii) (list ascii)).

Inductive error : Type :=
  | malformed_header_name        (* fmt.Errorf("malformed header name") *)
  | malformed_field_name         (* fmt.Errorf("malformed field name") *)
  | malformed_field_line         (* fmt.Errorf("malformed field line") *)
  | ERROR_MALFORMED_REQUESTLINE
  | ERROR_UNSUPPORTED_HTTP_VERSION
  | reader_error (msg : string). (* whatever the io.Reader returns, io.EOF included *)

Definition rn : list ascii := [CR; LF].

Definition NewHeaders : Headers := ∅.

(** [Headers.Get]: the map's value at the lowered name; Go's map read gives
    the empty string for a key that is absent. *)
Definition Headers_Get `{UnicodeTables} (h : Headers) (name : list ascii) : list ascii :=
  default [] (h !! strings_ToLower name).

(** [Headers.Set]: an assignment to the map at the lowered name. *)
Definition Headers_Set `{UnicodeTables} (h : Headers) (name value : list ascii) : Headers :=
  <[strings_ToLower name := value]> h.

(** The test of [isToken] on one rune.  [range name] decodes UTF-8: a byte
    below [RuneSelf] is always a rune of its own, and every other rune (a
    multi-byte one, or [utf8.RuneError]) is none of the characters tested,
    so any byte that is not ASCII makes [isToken] false. *)
Definition tokenChar (ch : ascii) : bool :=
  let found :=
    (code "A" <? code ch)%N && (code ch <? code "Z")%N
    || (code "a" <? code ch)%N && (code ch <? code "z")%N
    || (code "0" <? code ch)%N && (code ch <? code "9")%N in
  let found :=
    match ch with
    | "!" | "#" | "$" | "%" | "&" | "'" | "*" | "+" | "-" | "." | "^" | "_"
    | "`" | "|" | "~" => true
    | _ => found
    end%char in
  isASCII ch && found.

Definition isToken (name : list ascii) : bool := forallb tokenChar name.

Definition parseHeader `{UnicodeTables} (fieldLine : list ascii)
  : error + list ascii * list ascii :=
  let '(name, val, found) := bytes_Cut fieldLine (lit ":") in
  if found then
    let val := bytes_TrimSpace val in
    if negb (isToken name) then inl malformed_header_name
    else if bytes_HasSuffix name (lit " ") then inl malformed_field_name
    else inr (name, val)
  else inl malformed_field_line.

(** The loop of [Headers.Parse].  Every turn that goes on consumes at least
    [len(rn)] bytes, so [fuel] above the number of bytes left is never used
    up ([Parse_loop_fuel] below). *)
Fixpoint Parse_loop `{UnicodeTables} (fuel : nat) (h : Headers) (data : list ascii)
    (read : nat) : Headers * (nat * bool * option error) :=
  match fuel with
  | O => (h, (read, false, None))
  | S fuel =>
      match bytes_Index (drop read data) rn with
      | None => (h, (read, false, None))
      | Some O => (h, (read + length rn, true, None))
      | Some idx =>
          match parseHeader (take idx (drop read data)) with
          | inl err => (h, (0, false, Some err))
          | inr (name, value) =>
              Parse_loop fuel (Headers_Set h name value) data (read + (idx + length rn))
          end
      end
  end.

(** [Headers.Parse]: the table after the call, and (bytes consumed, done,
    error). *)
Definition Headers_Parse `{UnicodeTables} (h : Headers) (data : list ascii)
  : Headers * (nat * bool * option error) :=
  Parse_loop (S (length data)) h data 0.

(** Modelled from the spec: the two-valued [Get] that [getInt] calls
    ([valStr, exists := headers.Get(name)]) and that [headers.go] does not
    have; the spec's "case-insensitive lookup returning the value and an
    existence flag".  It is [Headers_Get] with the map's second result. *)
Definition Headers_Get_exists `{UnicodeTables} (h : Headers) (name : list ascii)
  : list ascii * bool :=
  match h !! strings_ToLower name with
  | Some v => (v, true)
  | None => ([], false)
  end.

(** ** Package request *)

Inductive parserState : Type :=
  | StateInit
  | StateHeaders
  | StateDone
  | StateBody.

#[export] Instance parserState_eq_dec : EqDecision parserState.
Proof. solve_decision. Defined.

Record RequestLine : Type := mkRequestLine {
  HttpVersion : list ascii;
  RequestTarget : list ascii;
  Method : list ascii
}.

Record Request : Type := mkRequest {
  Request_RequestLine : RequestLine;
  state : parserState;
  headers : Headers;
  body : list ascii
}.

Definition getInt `{UnicodeTables} (headers : Headers) (name : list ascii)
    (defaultValue : Z) : Z :=
  let '(valStr, exists_) := Headers_Get_exists headers name in
  if negb exists_ then defaultValue
  else match strconv_Atoi valStr with
       | None => defaultValue
       | Some value => value
       end.

Definition newRequest : Request :=
  {| Request_RequestLine := mkRequestLine [] [] [];
     state := StateInit;
     headers := NewHeaders;
     body := [] |}.

Definition SEPARATOR : list ascii := [CR; LF].

(** [parseRequestLine]: (request line or nil, bytes read, error). *)
Definition parseRequestLine (b : list ascii)
  : option RequestLine * nat * option error :=
  match bytes_Index b SEPARATOR with
  | None => (None, 0, None)
  | Some idx =>
      let startLine := take idx b in
      let read := idx + length SEPARATOR in
      let parts := bytes_Split startLine (lit " ") in
      if negb (length parts =? 3) then (None, 0, Some ERROR_MALFORMED_REQUESTLINE)
      else
        let httpParts := bytes_Split (nth 2 parts []) (lit "/") in
        if negb (length httpParts =? 2)
           || negb (bool_decide (nth 0 httpParts [] = lit "HTTP"))
           || negb (bool_decide (nth 1 httpParts [] = lit "1.1"))
        then (None, 0, Some ERROR_MALFORMED_REQUESTLINE)
        else
          (Some {| Method := nth 0 parts [];
                   RequestTarget := nth 1 parts [];
                   HttpVersion := nth 1 httpParts [] |},
           read, None)
  end.

(** How a call of [Request.parse] ends: it returns [(n, err)] and leaves the
    request [r], or it stops in a run-time panic. *)
Inductive outcome : Type :=
  | Returned (r : Request) (n : nat) (err : option error)
  | Panicked (r : Request).

(** One turn of the loop of [Request.parse]: go round again with the
    request and [read] updated, or leave the loop. *)
Inductive turn : Type :=
  | Again (r : Request) (read : nat)
  | Leave (o : outcome).

Definition with_state (r : Request) (s : parserState) : Request :=
  {| Request_RequestLine := Request_RequestLine r; state := s;
     headers := headers r; body := body r |}.

Definition with_headers (r : Request) (h : Headers) : Request :=
  {| Request_RequestLine := Request_RequestLine r; state := state r;
     headers := h; body := body r |}.

Definition with_body (r : Request) (b : list ascii) : Request :=
  {| Request_RequestLine := Request_RequestLine r; state := state r;
     headers := headers r; body := b |}.

Definition with_RequestLine (r : Request) (rl : RequestLine) : Request :=
  {| Request_RequestLine := rl; state := state r;
     headers := headers r; body := body r |}.

Definition parse_turn `{UnicodeTables} (r : Request) (data : list ascii) (read : nat)
  : turn :=
  let currentData := drop read data in
  match state r with
  | StateInit =>
      let '(rl, n, err) := parseRequestLine currentData in
      match err with
      | Some e => Leave (Returned r 0 (Some e))
      | None =>
          if n =? 0 then Leave (Returned r read None)
          else match rl with
               | None => Leave (Panicked r)   (* *rl with rl == nil *)
               | Some rl =>
                   Again (with_state (with_RequestLine r rl) StateHeaders) (read + n)
               end
      end
  | StateHeaders =>
      let '(h, (n, done, err)) := Headers_Parse (headers r) currentData in
      let r := with_headers r h in
      match err with
      | Some e => Leave (Returned r 0 (Some e))
      | None =>
          if n =? 0 then Leave (Returned r read None)
          else Again (if done then with_state r StateBody else r) (read + n)
      end
  | StateBody =>
      let length_ := getInt (headers r) (lit "content-length") 0 in
      if (length_ =? 0)%Z then Again (with_state r StateDone) read
      else
        let remaining := wrapInt (length_ - Z.of_nat (length (body r))) in
        let toRead := Z.min remaining (Z.of_nat (length currentData)) in
        if (toRead <? 0)%Z then Leave (Panicked r)   (* currentData[:toRead] *)
        else
          let r := with_body r (body r ++ take (Z.to_nat toRead) currentData) in
          Again (if (Z.of_nat (length (body r)) =? length_)%Z
                 then with_state r StateDone else r)
                (read + Z.to_nat toRead)
  | StateDone => Leave (Returned r read None)
  end.

(** The loop of [Request.parse].  It has no bound of its own: [None] says
    that [fuel] turns were not enough. *)
Fixpoint parse_loop `{UnicodeTables} (fuel : nat) (r : Request) (data : list ascii)
    (read : nat) : option outcome :=
  match fuel with
  | O => None
  | S fuel =>
      match parse_turn r data read with
      | Leave o => Some o
      | Again r' read' => parse_loop fuel r' data read'
      end
  end.

Definition parse `{UnicodeTables} (fuel : nat) (r : Request) (data : list ascii)
  : option outcome :=
  parse_loop fuel r data 0.

(** [Request.parse] returns [o]: some number of turns ends the loop. *)
Definition parse_returns `{UnicodeTables} (r : Request) (data : list ascii)
    (o : outcome) : Prop :=
  ∃ fuel, parse fuel r data = Some o.

(** [Request.parse] never returns. *)
Definition parse_diverges `{UnicodeTables} (r : Request) (data : list ascii) : Prop :=
  ∀ fuel, parse fuel r data = None.

Definition done (r : Request) : bool :=
  bool_decide (state r = StateDone).

(** [io.Reader]: [Read st k] is a call [Read(p)] with [len(p) = k] on a
    reader in state [st]; it gives the bytes written to [p], the error, and
    the reader's next state.  The contract of [io.Reader] is [0 <= n <=
    len(p)]. *)
Class Reader (R : Type) := {
  Read : R → nat → list ascii * option error * R;
  Read_le : ∀ st k, length (Read st k).1.1 ≤ k
}.

(** How [RequestFromReader] ends. *)
Inductive result : Type :=
  | Completed (request : Request)
  | Failed (err : error)
  | Crashed.

(** [make([]byte, 1024)]: the buffer is allocated once and never replaced. *)
Definition bufSize : nat := 1024.

(** The loop of [RequestFromReader].  [pending] is [buf[:bufLen]]; the call
    [reader.Read(buf[bufLen:])] offers the [bufSize - bufLen] bytes that are
    left.  [fuel] bounds the turns of this loop and of each [parse] in it. *)
Fixpoint RequestFromReader_loop `{UnicodeTables} `{Reader R} (fuel : nat)
    (request : Request) (pending : list ascii) (reader : R) : option result :=
  match fuel with
  | O => None
  | S fuel =>
      if done request then Some (Completed request)
      else
        let '(chunk, err, reader) := Read reader (bufSize - length pending) in
        match err with
        | Some e => Some (Failed e)
        | None =>
            let pending := pending ++ chunk in
            match parse fuel request pending with
            | None => None
            | Some (Panicked _) => Some Crashed
            | Some (Returned _ _ (Some e)) => Some (Failed e)
            | Some (Returned request readN None) =>
                RequestFromReader_loop fuel request (drop readN pending) reader
            end
        end
  end.

Definition RequestFromReader `{UnicodeTables} `{Reader R} (fuel : nat) (reader : R)
  : option result :=
  RequestFromReader_loop fuel newRequest [] reader.

(** A source that delivers a byte stream in the given chunks: a read takes
    what fits of the first chunk and leaves the rest of it for the next
    read; after the last chunk every read is [io.EOF]. *)
Definition chunks_Read (cs : list (list ascii)) (k : nat)
  : list ascii * option error * list (list ascii) :=
  match cs with
  | [] => ([], Some (reader_error "EOF"), [])
  | c :: cs' =>
      (take k c, None, if bool_decide (drop k c = []) then cs' else drop k c :: cs')
  end.

Lemma chunks_Read_le (cs : list (list ascii)) (k : nat) :
  length (chunks_Read cs k).1.1 ≤ k.
Proof.
  destruct cs as [|c cs]; simpl; [lia|]. rewrite length_take. lia.
Qed.

#[export] Instance chunkReader : Reader (list (list ascii)) :=
  {| Read := chunks_Read; Read_le := chunks_Read_le |}.

(** An instance to run the program on ASCII input, where the tables are not
    consulted. *)
Definition asciiTables : UnicodeTables :=
  {| mapToLower := id; trimFuncSpace := id |}.

(** ** Package main: the line reader and the hex printer *)

(** [bytes.IndexByte]: the index of the first [c] in [b]. *)
Definition bytes_IndexByte (b : list ascii) (c : ascii) : option nat :=
  bytes_Index b [c].

(** The loop of the goroutine of [getLinesChannel]: the strings it sends on
    [out], in order, until a read fails and it closes the channel.  Each
    turn reads into a fresh slice of 8 bytes; [str] is the line being
    gathered.  [None] says that [fuel] reads met no error.  (The receiver is
    taken to receive: a send on the channel waits for it.) *)
Fixpoint getLinesChannel_loop `{Reader R} (fuel : nat) (f : R) (str : list ascii)
  : option (list (list ascii)) :=
  match fuel with
  | O => None
  | S fuel =>
      let '(data, err, f) := Read f 8 in
      match err with
      | Some _ => Some (if bool_decide (length str ≠ 0) then [str] else [])
      | None =>
          match bytes_IndexByte data LF with
          | Some i =>
              (λ sent, (str ++ take i data) :: sent) <$> getLinesChannel_loop fuel f []
          | None => getLinesChannel_loop fuel f (str ++ data)
          end
      end
  end.

Definition getLinesChannel `{Reader R} (fuel : nat) (f : R) : option (list (list ascii)) :=
  getLinesChannel_loop fuel f [].

Definition hexDigit (n : N) : ascii := nth (N.to_nat n) (lit "0123456789abcdef") "0"%char.

(** [fmt.Sprintf("%02x", b)] for a byte [b]: two hexadecimal digits, in
    lower case, the high one first. *)
Definition Sprintf_02x (b : ascii) : list ascii :=
  [hexDigit (code b / 16); hexDigit (code b mod 16)].

(** [toStr]: [out] grows by the two digits of each byte. *)
Definition toStr (bytes : list ascii) : list ascii :=
  foldl (λ out b, out ++ Sprintf_02x b) [] bytes.

(** ** The vocabulary of the properties *)

(** The result of a [Headers.Parse] that continues a run which has already
    consumed [k] bytes: the count is taken from the start of the run.  An
    error returns no count. *)
Definition shift (k : nat) (res : Headers * (nat * bool * option error))
  : Headers * (nat * bool * option error) :=
  let '(h, (n, d, e)) := res in
  (h, (match e with Some _ => 0 | None => k + n end, d, e)).

(** A caller of [Headers.Parse] that receives the bytes in [chunks]: it
    parses what it holds, keeps the suffix that was not consumed in front of
    the next chunk, and adds up the counts, until the header section is
    complete or a call fails. *)
Fixpoint feed `{UnicodeTables} (h : Headers) (pending : list ascii)
    (chunks : list (list ascii)) (total : nat)
  : Headers * (nat * bool * option error) :=
  match chunks with
  | [] => (h, (total, false, None))
  | c :: chunks =>
      let buf := pending ++ c in
      let '(h, (n, d, e)) := Headers_Parse h buf in
      match e with
      | Some _ => (h, (total, false, e))
      | None =>
          if d then (h, (total + n, true, None))
          else feed h (drop n buf) chunks (total + n)
      end
  end.

(** A field line as [Headers.Parse] takes it: it holds no CRLF and
    [parseHeader] accepts it. *)
Definition well_formed `{UnicodeTables} (l : list ascii) : bool :=
  bool_decide (bytes_Index l rn = None) &&
  match parseHeader l with inr _ => true | inl _ => false end.

(** The field lines, each with its CRLF. *)
Definition field_lines (ls : list (list ascii)) : list ascii :=
  concat (map (λ l, l ++ rn) ls).

(** A header block: the field lines and the bare CRLF that ends them. *)
Definition header_block (ls : list (list ascii)) : list ascii :=
  field_lines ls ++ rn.

(** The table after the field lines [ls] have been [Set], in order. *)
Definition commit1 `{UnicodeTables} (h : Headers) (l : list ascii) : Headers :=
  match parseHeader l with
  | inr (name, value) => Headers_Set h name value
  | inl _ => h
  end.

Definition committed `{UnicodeTables} (ls : list (list ascii)) (h : Headers) : Headers :=
  foldl commit1 h ls.

(** The place of a state in the order Init, Headers, Body, Done. *)
Definition rank (s : parserState) : nat :=
  match s with
  | StateInit => 0
  | StateHeaders => 1
  | StateBody => 2
  | StateDone => 3
  end.

(** [follows s s']: [s'] is the state next after [s]. *)
Definition follows (s s' : parserState) : Prop :=
  match s, s' with
  | StateInit, StateHeaders | StateHeaders, StateBody | StateBody, StateDone => True
  | _, _ => False
  end.

Definition request_of (o : outcome) : Request :=
  match o with
  | Returned r _ _ => r
  | Panicked r => r
  end.

(** A sequence of calls of [Request.parse] on one request, each of which
    returns: [calls r tr r'] leads from [r] to [r'], and [tr] lists the
    data, the count and the error of each call. *)
Inductive calls `{UnicodeTables}
  : Request → list (list ascii * nat * option error) → Request → Prop :=
  | calls_nil r : calls r [] r
  | calls_cons r fuel data r1 n err tr r2 :
      parse fuel r data = Some (Returned r1 n err) →
      calls r1 tr r2 →
      calls r ((data, n, err) :: tr) r2.

#[export] Instance error_eq_dec : EqDecision error.
Proof. solve_decision. Defined.

#[export] Instance RequestLine_eq_dec : EqDecision RequestLine.
Proof. solve_decision. Defined.

#[export] Instance Request_eq_dec : EqDecision Request.
Proof. solve_decision. Defined.

(** A test that a call of [Request.parse] never returns: within [k] turns
    the loop comes to a turn that changes neither the request nor [read]. *)
Fixpoint parse_spins `{UnicodeTables} (k : nat) (r : Request) (data : list ascii)
    (read : nat) : bool :=
  match k with
  | O => false
  | S k =>
      match parse_turn r data read with
      | Again r' read' =>
          bool_decide (r' = r ∧ read' = read) || parse_spins k r' data read'
      | Leave _ => false
      end
  end.

(** A test that [RequestFromReader] never returns on a source of chunks:
    within [k] turns of its loop, a call of [Request.parse] spins, or a turn
    changes neither the request, nor the buffer, nor the source. *)
Fixpoint reader_spins `{UnicodeTables} (k : nat) (request : Request)
    (pending : list ascii) (reader : list (list ascii)) : bool :=
  match k with
  | O => false
  | S k =>
      if done request then false
      else
        let '(chunk, err, reader') := Read reader (bufSize - length pending) in
        match err with
        | Some _ => false
        | None =>
            let buf := pending ++ chunk in
            if parse_spins 4 request buf 0 then true
            else match parse 4 request buf with
                 | Some (Returned request' readN None) =>
                     bool_decide (request' = request ∧ drop readN buf = pending
                                  ∧ reader' = reader)
                     || reader_spins k request' (drop readN buf) reader'
                 | _ => false
                 end
        end
  end.

(** [RequestFromReader] never returns on the source [reader]. *)
Definition never_returns `{UnicodeTables} `{Reader R} (reader : R) : Prop :=
  ∀ fuel, RequestFromReader fuel reader = None.

(** [n] copies of the byte [c]. *)
Definition repeat_byte (c : ascii) (n : nat) : list ascii := replicate n c.

(** A request with no body whose one header line is longer than the
    buffer of [RequestFromReader]. *)
Definition long_header_request : list ascii :=
  lit "GET / HTTP/1.1\r\nX-Long: " ++ repeat_byte "b" 1100 ++ lit "\r\n\r\n".

(** The count of a call of [Request.parse] that reads on from offset [k]: an
    error returns no count. *)
Definition shift_outcome (k : nat) (o : outcome) : outcome :=
  match o with
  | Returned r n None => Returned r (k + n) None
  | _ => o
  end.

(** What a source of chunks still has to give: its bytes and its reads. *)
Definition supply (reader : list (list ascii)) : nat :=
  length (concat reader) + length reader.

(** A line that fits the buffer of [RequestFromReader] with its CRLF. *)
Definition fits (l : list ascii) : Prop := length l + length rn ≤ bufSize.

(** A stretch of bytes that stops at the end of a line: it is empty or its
    last two bytes are CRLF. *)
Definition line_end (w : list ascii) : Prop := w = [] ∨ ∃ u, w = u ++ rn.

(** The source delivers the body [b] together with the end of the header
    section: its last read holds the last bytes of the header section
    ([tail], at least one of them) and, after them, the whole body; and the
    buffer has room for that read, because what the reads before it gave
    after some end of line ([p]), the read itself included, is at most
    [bufSize] bytes. *)
Definition body_with_headers (chunks : list (list ascii)) (b : list ascii) : Prop :=
  ∃ (front : list (list ascii)) (whole p tail : list ascii),
    chunks = front ++ [tail ++ b] ∧ tail ≠ []
    ∧ concat front = whole ++ p ∧ line_end whole
    ∧ length (p ++ tail ++ b) ≤ bufSize.

(** Every key of the table is its own lower-case form, so [Headers.Get]
    finds it. *)
Definition keys_lowered `{UnicodeTables} (h : Headers) : Prop :=
  ∀ k v, h !! k = Some v → strings_ToLower k = k.

(** The pieces [ps] with the byte [c] between them: what [bytes.Split] on
    [c] takes apart. *)
Fixpoint join_byte (c : ascii) (ps : list (list ascii)) : list ascii :=
  match ps with
  | [] => []
  | [p] => p
  | p :: ps => p ++ c :: join_byte c ps
  end.

(** The body of a request holds no more than its Content-Length allows, and
    nothing before the Body state. *)
Definition body_within `{UnicodeTables} (r : Request) : Prop :=
  match state r with
  | StateInit | StateHeaders => body r = []
  | StateBody | StateDone =>
      (Z.of_nat (length (body r))
       ≤ Z.max 0 (getInt (headers r) (lit "content-length") 0))%Z
  end.

(** What [getLinesChannel] keeps of the bytes of one read: all of them up
    to the first line feed, that one included. *)
Definition upto_newline (data : list ascii) : list ascii :=
  match bytes_IndexByte data LF with
  | Some i => take (S i) data
  | None => data
  end.

(** The pieces without the last one when that is empty. *)
Fixpoint drop_empty_last (ps : list (list ascii)) : list (list ascii) :=
  match ps with
  | [] => []
  | [p] => if bool_decide (p = []) then [] else [p]
  | p :: ps => p :: drop_empty_last ps
  end.

(** The lines of a text: what stands between its line feeds, and after the
    last one if anything does. *)
Definition text_lines (s : list ascii) : list (list ascii) :=
  drop_empty_last (bytes_Split s [LF]).

(** The value of a hexadecimal digit, and the byte two digits stand for. *)
Definition hexValue (c : ascii) : N :=
  if (code "0" <=? code c)%N && (code c <=? code "9")%N then (code c - code "0")%N
  else (code c - code "a" + 10)%N.

Fixpoint unhex (s : list ascii) : list ascii :=
  match s with
  | hi :: lo :: s' => ascii_of_N (16 * hexValue hi + hexValue lo) :: unhex s'
  | _ => []
  end.

(** * Properties *)

(** ** [bytes.Index], [bytes.HasPrefix] *)

Section Bytes.

Implicit Types s t sep : list ascii.

Lemma HasPrefix_app s sep : bytes_HasPrefix (sep ++ s) sep = true.
Proof.
  induction sep as [|p sep IH]; simpl; [done|].
  rewrite bool_decide_eq_true_2 by done. exact IH.
Qed.

Lemma HasPrefix_inv s sep : bytes_HasPrefix s sep = true → s = sep ++ drop (length sep) s.
Proof.
  revert s. induction sep as [|p sep IH]; intros [|c s]; simpl; try done.
  intros [Hc Hs]%andb_true_iff. apply bool_decide_eq_true_1 in Hc as ->.
  f_equal. by apply IH.
Qed.

Lemma HasPrefix_app_r s t sep :
  bytes_HasPrefix s sep = true → bytes_HasPrefix (s ++ t) sep = true.
Proof.
  intros Hp. rewrite (HasPrefix_inv _ _ Hp), <- app_assoc. apply HasPrefix_app.
Qed.

Lemma HasPrefix_length s sep : bytes_HasPrefix s sep = true → length sep ≤ length s.
Proof.
  intros Hp. rewrite (HasPrefix_inv _ _ Hp), length_app. lia.
Qed.

(** A prefix test on [s ++ t] that only reads [s]. *)
Lemma HasPrefix_app_short s t sep :
  length sep ≤ length s → bytes_HasPrefix (s ++ t) sep = bytes_HasPrefix s sep.
Proof.
  revert s. induction sep as [|p sep IH]; intros [|c s]; simpl; try done; try lia.
  intros Hl. f_equal. apply IH. lia.
Qed.

Lemma Index_Some_le s sep i : bytes_Index s sep = Some i → i + length sep ≤ length s.
Proof.
  revert i. induction s as [|c s IH]; intros i; simpl.
  - destruct (bytes_HasPrefix [] sep) eqn:Hp; [|done].
    intros [= <-]. by apply HasPrefix_length in Hp.
  - destruct (bytes_HasPrefix (c :: s) sep) eqn:Hp.
    + intros [= <-]. by apply HasPrefix_length in Hp.
    + destruct (bytes_Index s sep) as [j|]; simpl; [|done].
      intros [= <-]. specialize (IH j eq_refl). lia.
Qed.

Lemma Index_Some_split s sep i :
  bytes_Index s sep = Some i → s = take i s ++ sep ++ drop (i + length sep) s.
Proof.
  revert i. induction s as [|c s IH]; intros i; simpl.
  - destruct (bytes_HasPrefix [] sep) eqn:Hp; [|done].
    intros [= <-]. by apply HasPrefix_inv in Hp.
  - destruct (bytes_HasPrefix (c :: s) sep) eqn:Hp.
    + intros [= <-]. by apply HasPrefix_inv in Hp.
    + destruct (bytes_Index s sep) as [j|]; simpl; [|done].
      intros [= <-]. simpl. f_equal. by apply IH.
Qed.

(** What [bytes.Index] finds in [s] it finds in [s ++ t]. *)
Lemma Index_app_Some s t sep i :
  bytes_Index s sep = Some i → bytes_Index (s ++ t) sep = Some i.
Proof.
  revert i. induction s as [|c s IH]; intros i; simpl.
  - destruct (bytes_HasPrefix [] sep) eqn:Hp; [|done].
    intros [= <-]. destruct sep; [|done]. by destruct t.
  - destruct (bytes_HasPrefix (c :: s) sep) eqn:Hp.
    + intros [= <-]. change (c :: s ++ t) with ((c :: s) ++ t).
      by rewrite HasPrefix_app_r.
    + destruct (bytes_Index s sep) as [j|] eqn:Hj; simpl; [|done].
      intros [= <-]. change (c :: s ++ t) with ((c :: s) ++ t).
      rewrite HasPrefix_app_short, Hp, (IH j) by (apply Index_Some_le in Hj; simpl; lia || done).
      done.
Qed.

(** Before the first instance there is none. *)
Lemma Index_take_None s sep i :
  sep ≠ [] → bytes_Index s sep = Some i → bytes_Index (take i s) sep = None.
Proof.
  intros Hsep. revert i. induction s as [|c s IH]; intros i; simpl.
  - destruct sep; [done|]. by rewrite take_nil.
  - destruct (bytes_HasPrefix (c :: s) sep) eqn:Hp.
    + intros [= <-]. simpl. by destruct sep.
    + destruct (bytes_Index s sep) as [j|] eqn:Hj; simpl; [|done].
      intros [= <-]. simpl. rewrite (IH j eq_refl). simpl.
      destruct (bytes_HasPrefix (c :: take j s) sep) eqn:Hq; [|done].
      apply (HasPrefix_app_r _ (drop j s)) in Hq. simpl in Hq.
      rewrite take_drop in Hq. congruence.
Qed.

End Bytes.

(** ** [Headers.Parse] *)

Section HeadersParse.

Context `{UnicodeTables}.

Implicit Types h : Headers.
Implicit Types data buf ext l : list ascii.

Lemma shift_shift a b res : shift a (shift b res) = shift (a + b) res.
Proof.
  destruct res as [h [[n d] [e|]]]; simpl; [done|]. do 3 f_equal. lia.
Qed.

(** The loop at offset [read] is the loop on [data[read:]], counted from
    [read]. *)
Lemma Parse_loop_shift fuel h data read :
  Parse_loop fuel h data read = shift read (Parse_loop fuel h (drop read data) 0).
Proof.
  revert h data read. induction fuel as [|fuel IH]; intros h data read; simpl.
  - by rewrite Nat.add_0_r.
  - rewrite drop_0. destruct (bytes_Index (drop read data) rn) as [[|i]|]; simpl.
    + done.
    + destruct (parseHeader _) as [e|[name value]]; simpl; [done|].
      rewrite (IH _ data), (IH _ (drop read data)), shift_shift, drop_drop. done.
    + by rewrite Nat.add_0_r.
Qed.

(** The fuel [Headers_Parse] gives its loop is never used up: more makes no
    difference. *)
Lemma Parse_loop_fuel fuel fuel' h data :
  length data < fuel → length data < fuel' →
  Parse_loop fuel h data 0 = Parse_loop fuel' h data 0.
Proof.
  revert fuel' h data. induction fuel as [|fuel IH]; intros [|fuel'] h data; try lia.
  intros Hf Hf'. simpl. rewrite !drop_0.
  destruct (bytes_Index data rn) as [[|i]|] eqn:Hi; try done.
  destruct (parseHeader _) as [e|[name value]]; [done|].
  rewrite (Parse_loop_shift fuel), (Parse_loop_shift fuel').
  apply Index_Some_le in Hi. simpl in Hi.
  f_equal. apply IH; rewrite length_drop; simpl; lia.
Qed.

(** The equation of the loop of [Headers.Parse], with the fuel gone. *)
Lemma Headers_Parse_unfold h data :
  Headers_Parse h data =
  match bytes_Index data rn with
  | None => (h, (0, false, None))
  | Some O => (h, (length rn, true, None))
  | Some idx =>
      match parseHeader (take idx data) with
      | inl err => (h, (0, false, Some err))
      | inr (name, value) =>
          shift (idx + length rn)
            (Headers_Parse (Headers_Set h name value) (drop (idx + length rn) data))
      end
  end.
Proof.
  unfold Headers_Parse at 1. simpl. rewrite !drop_0.
  destruct (bytes_Index data rn) as [[|i]|] eqn:Hi; try done.
  destruct (parseHeader _) as [e|[name value]]; [done|].
  rewrite Parse_loop_shift. f_equal. unfold Headers_Parse.
  apply Index_Some_le in Hi. simpl in Hi.
  apply Parse_loop_fuel; rewrite ?length_drop; simpl; lia.
Qed.

(** A call that fails reports no bytes, so counting from 0 changes nothing. *)
Lemma shift_0_Parse h data : shift 0 (Headers_Parse h data) = Headers_Parse h data.
Proof.
  rewrite Headers_Parse_unfold.
  destruct (bytes_Index data rn) as [[|i]|]; try done.
  destruct (parseHeader _) as [e|[name value]]; [done|]. by rewrite shift_shift.
Qed.

(** [Headers.Parse] on a buffer that has grown by [ext]: a call that failed
    or completed the header section on [buf] does the same on [buf ++ ext];
    a call that stopped for want of data goes on from where it stopped. *)
Lemma Headers_Parse_app h buf ext :
  Headers_Parse h (buf ++ ext) =
  match Headers_Parse h buf with
  | (h', (n, false, None)) => shift n (Headers_Parse h' (drop n buf ++ ext))
  | res => res
  end.
Proof.
  remember (length buf) as m eqn:Hm. revert h buf Hm.
  induction m as [m IH] using lt_wf_ind. intros h buf ->.
  rewrite (Headers_Parse_unfold h buf).
  destruct (bytes_Index buf rn) as [[|i]|] eqn:Hi.
  - rewrite Headers_Parse_unfold, (Index_app_Some _ _ _ _ Hi). done.
  - pose proof (Index_Some_le _ _ _ Hi) as Hle. simpl in Hle.
    rewrite (Headers_Parse_unfold h (buf ++ ext)), (Index_app_Some _ _ _ _ Hi).
    rewrite take_app_le by lia.
    destruct (parseHeader _) as [e|[name value]]; [done|].
    rewrite drop_app_le by (simpl; lia).
    rewrite (IH (length (drop (S i + length rn) buf))); [|rewrite length_drop; simpl; lia|done].
    destruct (Headers_Parse _ (drop _ buf)) as [h' [[n [|]] [e|]]]; simpl; try done.
    rewrite shift_shift, drop_drop. done.
  - simpl. by rewrite shift_0_Parse.
Qed.

(** A call that stops for want of data leaves no complete line behind. *)
Lemma Headers_Parse_rest h buf h' n :
  Headers_Parse h buf = (h', (n, false, None)) → bytes_Index (drop n buf) rn = None.
Proof.
  remember (length buf) as m eqn:Hm. revert h buf n Hm.
  induction m as [m IH] using lt_wf_ind. intros h buf n ->.
  rewrite Headers_Parse_unfold.
  destruct (bytes_Index buf rn) as [[|i]|] eqn:Hi.
  - done.
  - pose proof (Index_Some_le _ _ _ Hi) as Hle. simpl in Hle.
    destruct (parseHeader _) as [e|[name value]]; [done|].
    destruct (Headers_Parse _ (drop _ buf)) as [h1 [[k d] [e|]]] eqn:Hrec; simpl; [done|].
    intros [= -> <- ->].
    replace (S (i + 2 + k)) with (S i + length rn + k) by (simpl; lia).
    rewrite <- drop_drop.
    eapply (IH (length (drop (S i + length rn) buf))); [|done|exact Hrec].
    rewrite length_drop. simpl. lia.
  - by intros [= <- <-].
Qed.

(** Chunked and whole: as long as the whole parse meets no error, feeding
    the bytes in chunks ends with the table and the count of the one call. *)
Lemma feed_whole chunks h pending total :
  bytes_Index pending rn = None →
  (Headers_Parse h (pending ++ concat chunks)).2.2 = None →
  feed h pending chunks total = shift total (Headers_Parse h (pending ++ concat chunks)).
Proof.
  revert h pending total. induction chunks as [|c chunks IH]; intros h pending total Hp.
  - simpl. rewrite app_nil_r, Headers_Parse_unfold, Hp. simpl. by rewrite Nat.add_0_r.
  - simpl. rewrite app_assoc, Headers_Parse_app.
    destruct (Headers_Parse h (pending ++ c)) as [h' [[n d] e]] eqn:Hc.
    destruct e as [e|]; [by destruct d|].
    destruct d; [done|].
    intros He. rewrite IH, shift_shift.
    + done.
    + by eapply Headers_Parse_rest.
    + by destruct (Headers_Parse h' _) as [? [[? ?] [?|]]].
Qed.

Lemma well_formed_inv l :
  well_formed l = true →
  bytes_Index l rn = None ∧ l ≠ [] ∧ ∃ name value, parseHeader l = inr (name, value).
Proof.
  unfold well_formed. intros [Hi Hp]%andb_true_iff.
  apply bool_decide_eq_true_1 in Hi. split; [done|].
  destruct (parseHeader l) as [e|[name value]] eqn:Hl; [done|].
  split; [|by eauto]. intros ->. by vm_compute in Hl.
Qed.

(** A line with no CRLF in it ends at the first CRLF after it. *)
Lemma Index_line l t : bytes_Index l rn = None → bytes_Index (l ++ rn ++ t) rn = Some (length l).
Proof.
  induction l as [|c l IH]; [done|]. intros Hl.
  change (bytes_Index (c :: l) rn) with
    (if bytes_HasPrefix (c :: l) rn then Some 0 else S <$> bytes_Index l rn) in Hl.
  change (bytes_Index ((c :: l) ++ rn ++ t) rn) with
    (if bytes_HasPrefix (c :: l ++ rn ++ t) rn then Some 0
     else S <$> bytes_Index (l ++ rn ++ t) rn).
  destruct (bytes_HasPrefix (c :: l) rn) eqn:Hp; [done|].
  destruct (bytes_Index l rn) eqn:Hi; [done|]. rewrite IH by done.
  destruct (bytes_HasPrefix (c :: l ++ rn ++ t) rn) eqn:Hq; [|done].
  exfalso. destruct l as [|c' l]; simpl in *.
  - by rewrite andb_false_r in Hq.
  - congruence.
Qed.

(** One call on a whole header block consumes it all and commits every
    line. *)
Lemma Headers_Parse_block ls h :
  Forall (λ l, well_formed l = true) ls →
  Headers_Parse h (header_block ls) =
  (committed ls h, (length (header_block ls), true, None)).
Proof.
  intros Hls. revert h. induction Hls as [|l ls Hl Hls IH]; intros h.
  - by rewrite Headers_Parse_unfold.
  - apply well_formed_inv in Hl as (Hi & Hne & name & value & Hp).
    unfold header_block, field_lines. simpl. rewrite <- !app_assoc.
    rewrite Headers_Parse_unfold, Index_line by done.
    destruct (length l) as [|k] eqn:Hk; [by destruct l|]. rewrite <- Hk.
    rewrite take_app_length, Hp.
    rewrite (app_assoc l rn), <- (length_app l rn), drop_app_length.
    change (concat (map (λ l0, l0 ++ rn) ls) ++ rn) with (header_block ls).
    rewrite IH. simpl. unfold committed at 2. simpl. unfold commit1 at 2. rewrite Hp.
    do 3 f_equal. rewrite !length_app. simpl. unfold header_block, field_lines.
    rewrite !length_app. simpl. lia.
Qed.

End HeadersParse.

(** ** The header table: [Get] and [Set] *)

Section GetSet.

Context `{UnicodeTables}.

Implicit Types h : Headers.

(** [Get] sees the name through [strings.ToLower] only. *)
Lemma Get_case_insensitive h name name' :
  strings_ToLower name = strings_ToLower name' →
  Headers_Get h name = Headers_Get h name'.
Proof. unfold Headers_Get. by intros ->. Qed.

(** A [Set] replaces what an earlier [Set] of the same lowered name stored. *)
Lemma Get_Set_Set h name name' value value' :
  strings_ToLower name = strings_ToLower name' →
  Headers_Get (Headers_Set (Headers_Set h name value) name' value') name = value'.
Proof.
  unfold Headers_Get, Headers_Set. intros ->. by rewrite lookup_insert_eq.
Qed.

(** C2, at the claim's own input: after [Set("Host","a")] and
    [Set("HOST","b")], [Get("host")] is ["b"], not ["a,b"]: [Headers.Set]
    assigns to the map entry and joins nothing. *)
Theorem Set_Host_HOST_Get_host :
  Headers_Get
    (Headers_Set (Headers_Set NewHeaders (lit "Host") (lit "a")) (lit "HOST") (lit "b"))
    (lit "host")
  = lit "b".
Proof. apply (Get_Set_Set NewHeaders (lit "host") (lit "HOST")). reflexivity. Qed.

(** C10: [Headers.Get] returns the value alone.  For a name that was never
    [Set] and for a name that was [Set] to the empty value it returns the
    same empty string, so the two cannot be told apart. *)
Theorem Get_absent_as_empty name :
  Headers_Get NewHeaders name = []
  ∧ Headers_Get (Headers_Set NewHeaders name []) name = [].
Proof.
  unfold Headers_Get, Headers_Set, NewHeaders.
  by rewrite lookup_empty, lookup_insert_eq.
Qed.

(** [getInt] asks for the existence flag and does not depend on it: an
    absent name reads as the empty string, which [strconv.Atoi] refuses. *)
Lemma getInt_Get h name defaultValue :
  getInt h name defaultValue =
  match strconv_Atoi (Headers_Get h name) with
  | None => defaultValue
  | Some value => value
  end.
Proof.
  unfold getInt, Headers_Get_exists, Headers_Get.
  by destruct (h !! strings_ToLower name).
Qed.

End GetSet.

(** ** [isToken] and [parseHeader] *)

Section Token.

Context `{UnicodeTables}.

(** The bytes [isToken] lets through, all of them: the special characters,
    and the letters and digits other than the first and the last of each
    range. *)
Lemma tokenChar_bytes c :
  tokenChar c =
  bool_decide
    (c ∈ lit "!#$%&'*+-.^_`|~12345678BCDEFGHIJKLMNOPQRSTUVWXYbcdefghijklmnopqrstuvwxy").
Proof. by destruct c as [[] [] [] [] [] [] [] []]; vm_compute. Qed.

(** C7: [isToken] refuses each of the six boundary characters, so
    [Headers.Parse] refuses a field line whose name holds one of them, such
    as [Accept]: the comparisons of [isToken] are strict at both ends of
    each range. *)
Theorem isToken_refuses_boundary :
  Forall (λ c, isToken [c] = false) (lit "AZaz09")
  ∧ (Headers_Parse NewHeaders (lit "Accept: */*\r\n\r\n")).2
    = (0, false, Some malformed_header_name).
Proof. split; [by repeat constructor|reflexivity]. Qed.

(** A name with a space in it, before the colon or elsewhere, is refused by
    the token test. *)
Lemma isToken_space name : " "%char ∈ name → isToken name = false.
Proof.
  intros Hin. unfold isToken. apply not_true_is_false. intros Hall.
  rewrite forallb_forall in Hall. apply list_elem_of_In in Hin.
  by apply Hall in Hin.
Qed.

End Token.

(** ** [Headers.Parse]: chunks, and errors *)

Section ParseClaims.

Context `{UnicodeTables}.

Implicit Types h : Headers.

(** Chunks and the whole agree on what the parser accepts: for every header
    block made of field lines [parseHeader] accepts and the bare CRLF that
    ends them, and for every way of cutting its bytes into chunks, feeding
    the chunks one call at a time (the suffix a call did not consume kept in
    front of the next chunk) ends with the same table, the same total of
    bytes consumed and the same completion flag as the one call on the whole
    block, which consumes the block entirely. *)
Lemma Parse_chunks_as_whole h (ls chunks : list (list ascii)) :
  Forall (λ l, well_formed l = true) ls →
  concat chunks = header_block ls →
  feed h [] chunks 0 = Headers_Parse h (header_block ls)
  ∧ Headers_Parse h (header_block ls)
    = (committed ls h, (length (header_block ls), true, None)).
Proof.
  intros Hls Hchunks. pose proof (Headers_Parse_block ls h Hls) as Hwhole.
  split; [|done].
  rewrite (feed_whole chunks h [] 0); simpl; rewrite ?Hchunks, ?Hwhole; done.
Qed.

(** C1, on a valid header block whose second field name is [Accept]:
    [isToken] refuses the letter [A], so the one call on the whole block
    returns the error and counts no byte, while the caller that receives
    the same bytes in two chunks has counted the 9 bytes of the first line
    before the second call fails.  The table is the same, the totals are
    not. *)
Theorem Parse_chunks_valid_block_differ :
  let block := lit "Host: b\r\nAccept: x\r\n\r\n" in
  let chunks := [lit "Host: b\r\n"; lit "Accept: x\r\n\r\n"] in
  concat chunks = block
  ∧ Headers_Parse NewHeaders block
    = ({[ lit "host" := lit "b" ]}, (0, false, Some malformed_header_name))
  ∧ feed NewHeaders [] chunks 0
    = ({[ lit "host" := lit "b" ]}, (9, false, Some malformed_header_name)).
Proof. split; [reflexivity|]. split; vm_compute; reflexivity. Qed.

(** C8, as the code has it: a call that fails returns the error with no
    bytes consumed and the header section not complete, and the table it
    leaves holds, besides what it held, the field lines that stand in the
    buffer before the malformed one: they were committed as they were read
    and are not taken back.  When the malformed line is the first of the
    buffer ([good = []]) the table is as it was. *)
Theorem Parse_error_keeps_earlier_lines h (data : list ascii) h' n d e :
  Headers_Parse h data = (h', (n, d, Some e)) →
  n = 0 ∧ d = false ∧
  ∃ (good : list (list ascii)) (bad rest : list ascii),
    data = field_lines good ++ bad ++ rn ++ rest
    ∧ Forall (λ l, well_formed l = true) good
    ∧ bytes_Index bad rn = None
    ∧ parseHeader bad = inl e
    ∧ h' = committed good h.
Proof.
  remember (length data) as m eqn:Hm. revert h data h' n d e Hm.
  induction m as [m IH] using lt_wf_ind. intros h data h' n d e ->.
  rewrite Headers_Parse_unfold.
  destruct (bytes_Index data rn) as [[|i]|] eqn:Hi; [done| |done].
  pose proof (Index_Some_le _ _ _ Hi) as Hle. simpl in Hle.
  pose proof (Index_Some_split _ _ _ Hi) as Hsplit.
  assert (bytes_Index (take (S i) data) rn = None) as Hnone
    by (by apply Index_take_None).
  destruct (parseHeader (take (S i) data)) as [e'|[name value]] eqn:Hp.
  - intros [= <- <- <- <-]. do 2 (split; [done|]).
    exists [], (take (S i) data), (drop (S i + length rn) data). by simpl.
  - destruct (Headers_Parse _ (drop _ data)) as [h1 [[k d1] [e1|]]] eqn:Hrec;
      simpl; [|done].
    intros [= -> <- <- ->].
    destruct (IH (length (drop (S i + length rn) data))
                ltac:(rewrite length_drop; simpl; lia) _ _ _ _ _ _ eq_refl Hrec)
      as (_ & -> & good & bad & rest & Hdata & Hgood & Hbad & Hbade & ->).
    do 2 (split; [done|]).
    exists (take (S i) data :: good), bad, rest.
    split; [|split; [|split; [done|split; [done|]]]].
    + etrans; [exact Hsplit|]. rewrite Hdata. unfold field_lines. simpl.
      by rewrite <- !app_assoc.
    + constructor; [|done]. unfold well_formed. by rewrite Hnone, Hp, bool_decide_eq_true_2.
    + unfold committed. simpl. unfold commit1 at 3. by rewrite Hp.
Qed.

End ParseClaims.

(** The header block of the package's test, fed in uneven chunks (one of
    them empty, two of them cutting a CRLF in half). *)
Lemma Parse_chunks_as_whole_witness :
  let ls := [lit "Host: localhost:42069"; lit "Foo:     barbar  "] in
  let chunks := [lit "Host: loc"; lit "alhost:42069\r"; []; lit "\nFoo:     barbar  \r";
                 lit "\n\r"; lit "\n"] in
  @feed asciiTables NewHeaders [] chunks 0
  = @Headers_Parse asciiTables NewHeaders (header_block ls)
  ∧ @Headers_Parse asciiTables NewHeaders (header_block ls)
    = (@committed asciiTables ls NewHeaders, (length (header_block ls), true, None)).
Proof.
  apply (@Parse_chunks_as_whole asciiTables).
  - repeat constructor.
  - reflexivity.
Defined.

(** C8 as the claim states it fails: a valid field line and then a malformed
    one give the error and no bytes consumed, and the table has changed: it
    holds the first line. *)
Lemma Parse_error_table_changed :
  @Headers_Parse asciiTables NewHeaders (lit "Host: b\r\nN@me: v\r\n")
  = ({[ lit "host" := lit "b" ]}, (0, false, Some malformed_header_name))
  ∧ ({[ lit "host" := lit "b" ]} : Headers) ≠ NewHeaders.
Proof.
  split; [vm_compute; reflexivity|].
  intros Heq. apply (f_equal (λ m : Headers, m !! lit "host")) in Heq.
  by vm_compute in Heq.
Qed.

Lemma Parse_error_keeps_earlier_lines_witness :
  0 = 0 ∧ false = false ∧
  ∃ (good : list (list ascii)) (bad rest : list ascii),
    lit "Host: b\r\nN@me: v\r\n" = field_lines good ++ bad ++ rn ++ rest
    ∧ Forall (λ l, @well_formed asciiTables l = true) good
    ∧ bytes_Index bad rn = None
    ∧ @parseHeader asciiTables bad = inl malformed_header_name
    ∧ ({[ lit "host" := lit "b" ]} : Headers) = @committed asciiTables good NewHeaders.
Proof.
  apply (@Parse_error_keeps_earlier_lines asciiTables NewHeaders
           (lit "Host: b\r\nN@me: v\r\n")).
  reflexivity.
Defined.

(** ** [parseRequestLine] *)

(** The two errors the package declares are different values. *)
Lemma errors_distinct : ERROR_UNSUPPORTED_HTTP_VERSION ≠ ERROR_MALFORMED_REQUESTLINE.
Proof. done. Qed.

Lemma parseRequestLine_GET :
  parseRequestLine (lit "GET /x HTTP/1.1\r\n")
  = (Some {| Method := lit "GET"; RequestTarget := lit "/x"; HttpVersion := lit "1.1" |},
     17, None).
Proof. reflexivity. Qed.

Lemma parseRequestLine_two_tokens :
  parseRequestLine (lit "GET /x\r\n") = (None, 0, Some ERROR_MALFORMED_REQUESTLINE).
Proof. reflexivity. Qed.

Lemma parseRequestLine_no_CRLF (b : list ascii) :
  bytes_Index b SEPARATOR = None → parseRequestLine b = (None, 0, None).
Proof. unfold parseRequestLine. by intros ->. Qed.

(** C6, at the claim's own input: for a third token other than [HTTP/1.1]
    [parseRequestLine] returns [ERROR_MALFORMED_REQUESTLINE], the error of a
    wrong token count; [ERROR_UNSUPPORTED_HTTP_VERSION] is declared beside
    it and returned on no input at all. *)
Theorem parseRequestLine_HTTP_1_0 :
  parseRequestLine (lit "GET /x HTTP/1.0\r\n")
  = (None, 0, Some ERROR_MALFORMED_REQUESTLINE)
  ∧ ∀ b : list ascii,
      (parseRequestLine b).2 = None
      ∨ (parseRequestLine b).2 = Some ERROR_MALFORMED_REQUESTLINE.
Proof.
  split; [reflexivity|]. intros b. unfold parseRequestLine.
  destruct (bytes_Index b SEPARATOR); [|by left].
  repeat (destruct (_ : bool); simpl); auto.
Qed.

(** ** [Request.parse] *)

Section Parse.

Context `{UnicodeTables}.

Implicit Types r : Request.
Implicit Types data : list ascii.

Lemma parse_loop_S fuel r data read :
  parse_loop (S fuel) r data read =
  match parse_turn r data read with
  | Leave o => Some o
  | Again r' read' => parse_loop fuel r' data read'
  end.
Proof. reflexivity. Qed.

(** More fuel does not change what a call returns. *)
Lemma parse_loop_mono fuel fuel' r data read o :
  parse_loop fuel r data read = Some o → fuel ≤ fuel' →
  parse_loop fuel' r data read = Some o.
Proof.
  revert fuel' r read. induction fuel as [|fuel IH]; intros [|fuel'] r read; try done; try lia.
  rewrite !parse_loop_S. destruct (parse_turn r data read); [|done].
  intros Ho Hle. apply IH; [done|lia].
Qed.

Lemma parse_loop_det fuel fuel' r data read o o' :
  parse_loop fuel r data read = Some o → parse_loop fuel' r data read = Some o' → o = o'.
Proof.
  intros Ho Ho'.
  apply (parse_loop_mono _ (fuel `max` fuel')) in Ho; [|lia].
  apply (parse_loop_mono _ (fuel `max` fuel')) in Ho'; [|lia].
  congruence.
Qed.

(** [strconv.Atoi] gives a Go [int]. *)
Lemma Atoi_inInt (s : list ascii) v : strconv_Atoi s = Some v → inInt v = true.
Proof.
  unfold strconv_Atoi.
  destruct (match s with
            | "-"%char :: ds => (true, ds)
            | "+"%char :: ds => (false, ds)
            | _ => (false, s)
            end) as [neg ds].
  destruct ds; [done|]. destruct (digits 0 _) as [z|]; simpl; [|done].
  by destruct (inInt _) eqn:Hin; intros [= <-].
Qed.

Lemma getInt_inInt (h : Headers) name : inInt (getInt h name 0) = true.
Proof.
  rewrite getInt_Get. destruct (strconv_Atoi _) eqn:Ha; [|done].
  by eapply Atoi_inInt.
Qed.

Lemma wrapInt_inInt z : inInt z = true → wrapInt z = z.
Proof.
  unfold inInt, wrapInt, minInt, maxInt. intros [? ?]%andb_true_iff.
  rewrite Z.mod_small; lia.
Qed.

(** C4: [Request.parse] is not total.  A request that enters the Body state
    with a Content-Length below zero makes the next call compute a negative
    [toRead] and slice [currentData[:toRead]] with it: the call ends in a
    run-time panic, whatever the data, and returns neither a count nor an
    error. *)
Theorem parse_negative_Content_Length_panics fuel r data :
  state r = StateBody →
  body r = [] →
  (getInt (headers r) (lit "content-length") 0 < 0)%Z →
  parse (S fuel) r data = Some (Panicked r).
Proof.
  intros Hst Hbody Hneg. unfold parse. rewrite parse_loop_S.
  unfold parse_turn. rewrite Hst, Hbody. simpl length.
  pose proof (getInt_inInt (headers r) (lit "content-length")) as Hin.
  destruct (Z.eqb_spec (getInt (headers r) (lit "content-length") 0) 0) as [Hz|_]; [lia|].
  rewrite Z.sub_0_r, wrapInt_inInt by done.
  destruct (Z.ltb_spec
    (getInt (headers r) (lit "content-length") 0
       `min` Z.of_nat (length (drop 0 data))) 0); [done|lia].
Qed.

End Parse.

(** The claim's own request, from the first byte: the third turn of the
    loop panics. *)
Lemma parse_Content_Length_minus_1 (fuel : nat) :
  ∃ r, @parse asciiTables (3 + fuel) newRequest
         (lit "POST /a HTTP/1.1\r\nContent-Length: -1\r\n\r\n") = Some (Panicked r).
Proof.
  eexists. apply (parse_loop_mono 3); [|lia]. vm_compute. reflexivity.
Qed.

Lemma parse_negative_Content_Length_panics_witness :
  let r := {| Request_RequestLine := mkRequestLine (lit "1.1") (lit "/a") (lit "POST");
              state := StateBody;
              headers := {[ lit "content-length" := lit "-1" ]};
              body := [] |} in
  @parse asciiTables 1 r (lit "hello") = Some (Panicked r).
Proof.
  intros r. apply (@parse_negative_Content_Length_panics asciiTables 0 r (lit "hello")).
  - reflexivity.
  - reflexivity.
  - vm_compute. reflexivity.
Defined.

(** ** The state of the parser *)

Section States.

Context `{UnicodeTables}.

Implicit Types r : Request.
Implicit Types data : list ascii.

(** A turn that goes on keeps the state or moves it one step along the
    order. *)
Lemma parse_turn_Again r data read r' read' :
  parse_turn r data read = Again r' read' →
  state r' = state r ∨ follows (state r) (state r').
Proof.
  unfold parse_turn. destruct (state r) eqn:Hst.
  - destruct (parseRequestLine _) as [[[rl|] n] [e|]]; try done;
      destruct (n =? 0); try done; intros [= <- <-]; by right.
  - destruct (Headers_Parse _ _) as [h [[n [|]] [e|]]]; try done;
      destruct (n =? 0); try done; intros [= <- <-]; simpl; rewrite ?Hst; auto.
  - done.
  - destruct (_ =? 0)%Z; [intros [= <- <-]; by right|].
    destruct (_ <? 0)%Z; [done|].
    destruct (_ =? _)%Z; intros [= <- <-]; simpl; rewrite ?Hst; auto.
Qed.

(** A turn that leaves the loop leaves the state as it is. *)
Lemma parse_turn_Leave r data read o :
  parse_turn r data read = Leave o → state (request_of o) = state r.
Proof.
  unfold parse_turn. destruct (state r) eqn:Hst.
  - destruct (parseRequestLine _) as [[[rl|] n] [e|]]; try (by intros [= <-]);
      destruct (n =? 0); try done; by intros [= <-].
  - destruct (Headers_Parse _ _) as [h [[n d] [e|]]]; [by intros [= <-]|].
    destruct (n =? 0); [by intros [= <-]|]. by destruct d.
  - by intros [= <-].
  - destruct (_ =? 0)%Z; [done|]. destruct (_ <? 0)%Z; [by intros [= <-]|].
    by destruct (_ =? _)%Z.
Qed.

Lemma follows_rank s s' : follows s s' → rank s' = S (rank s).
Proof. by destruct s, s'. Qed.

Lemma parse_loop_rank fuel r data read o :
  parse_loop fuel r data read = Some o →
  rank (state r) ≤ rank (state (request_of o)).
Proof.
  revert r read. induction fuel as [|fuel IH]; intros r read; [done|].
  rewrite parse_loop_S. destruct (parse_turn r data read) as [r1 read1|o1] eqn:Hturn.
  - intros Ho. apply IH in Ho.
    destruct (parse_turn_Again _ _ _ _ _ Hturn) as [Heq%(f_equal rank)|Hf%follows_rank]; lia.
  - intros [= <-]. by rewrite (parse_turn_Leave _ _ _ _ Hturn).
Qed.

(** In the Done state a call returns at its first turn, with no byte
    consumed and the request as it was. *)
Lemma parse_Done fuel r data :
  state r = StateDone → parse (S fuel) r data = Some (Returned r 0 None).
Proof.
  intros Hst. unfold parse. rewrite parse_loop_S. unfold parse_turn. by rewrite Hst.
Qed.

(** C9: along every sequence of calls of [Request.parse] the state never
    moves back in the order Init, Headers, Body, Done; from a request that
    is Done every call of the sequence returns with no byte consumed and no
    error and leaves the request as it was; and on a request that is Done
    every further call does return, at once, with no byte consumed and the
    request unchanged. *)
Theorem parse_forward_Done_terminal r tr r' :
  calls r tr r' →
  rank (state r) ≤ rank (state r')
  ∧ (state r = StateDone → r' = r ∧ Forall (λ c, c.1.2 = 0 ∧ c.2 = None) tr)
  ∧ (state r' = StateDone →
     ∀ fuel data, parse (S fuel) r' data = Some (Returned r' 0 None)).
Proof.
  intros Hcalls. split; [|split].
  - induction Hcalls as [r|r fuel data r1 n err tr r2 Hparse _ IH]; [done|].
    apply parse_loop_rank in Hparse. simpl in Hparse. lia.
  - induction Hcalls as [r|r fuel data r1 n err tr r2 Hparse _ IH]; [done|].
    intros Hst. destruct fuel as [|fuel]; [done|].
    rewrite (parse_Done fuel r data Hst) in Hparse. injection Hparse as <- <- <-.
    destruct (IH Hst) as [-> Htr]. split; [done|]. by constructor.
  - intros Hst fuel data. by apply parse_Done.
Qed.

End States.

Lemma parse_forward_Done_terminal_witness :
  let msg := lit "POST /a HTTP/1.1\r\nContent-Length: 5\r\n\r\nhello" in
  let r' := {| Request_RequestLine := mkRequestLine (lit "1.1") (lit "/a") (lit "POST");
               state := StateDone;
               headers := {[ lit "content-length" := lit "5" ]};
               body := lit "hello" |} in
  let tr : list (list ascii * nat * option error) :=
    [(msg, 44, None); (lit "GET / HTTP/1.1\r\n", 0, None)] in
  rank (state newRequest) ≤ rank (state r')
  ∧ (state newRequest = StateDone →
     r' = newRequest ∧ Forall (λ c, c.1.2 = 0 ∧ c.2 = None) tr)
  ∧ (state r' = StateDone →
     ∀ fuel data, @parse asciiTables (S fuel) r' data = Some (Returned r' 0 None)).
Proof.
  intros msg r' tr.
  apply (@parse_forward_Done_terminal asciiTables newRequest tr r').
  apply (calls_cons _ 4 _ r'); [vm_compute; reflexivity|].
  apply (calls_cons _ 1 _ r'); [vm_compute; reflexivity|].
  apply calls_nil.
Defined.

(** ** Calls that never return *)

Section Spinning.

Context `{UnicodeTables}.

Implicit Types r : Request.
Implicit Types data pending : list ascii.

(** A turn that changes nothing is repeated for ever. *)
Lemma parse_loop_fixed r data read :
  parse_turn r data read = Again r read → ∀ fuel, parse_loop fuel r data read = None.
Proof.
  intros Hturn fuel. induction fuel as [|fuel IH]; [done|].
  by rewrite parse_loop_S, Hturn.
Qed.

Lemma parse_spins_sound k r data read :
  parse_spins k r data read = true → ∀ fuel, parse_loop fuel r data read = None.
Proof.
  revert r read. induction k as [|k IH]; intros r read; [done|]. simpl.
  destruct (parse_turn r data read) as [r' read'|o] eqn:Hturn; [|done].
  intros [Hfix|Hk]%orb_true_iff.
  - apply bool_decide_eq_true_1 in Hfix as [-> ->]. by apply parse_loop_fixed.
  - intros [|fuel]; [done|]. rewrite parse_loop_S, Hturn. by apply IH.
Qed.

(** In the Body state, with a Content-Length above what the body holds and
    the buffer offers together, [Request.parse] never returns: it takes what
    the buffer has and then turns for ever on an empty [currentData]. *)
Lemma parse_Body_short r data read :
  state r = StateBody →
  (Z.of_nat (length (body r)) + Z.of_nat (length (drop read data))
   < getInt (headers r) (lit "content-length") 0)%Z →
  ∀ fuel, parse_loop fuel r data read = None.
Proof.
  intros Hst Hlen fuel. revert r read Hst Hlen.
  induction fuel as [|fuel IH]; intros r read Hst Hlen; [done|].
  rewrite parse_loop_S. unfold parse_turn. rewrite Hst.
  pose proof (getInt_inInt (headers r) (lit "content-length")) as Hin.
  set (L := getInt (headers r) (lit "content-length") 0) in *.
  destruct (Z.eqb_spec L 0) as [Hz|_]; [lia|].
  rewrite wrapInt_inInt
    by (unfold inInt, minInt, maxInt in *; apply andb_true_iff in Hin as [? ?];
        apply andb_true_iff; lia).
  rewrite Z.min_r by lia.
  destruct (Z.ltb_spec (Z.of_nat (length (drop read data))) 0) as [|_]; [lia|].
  rewrite Nat2Z.id, firstn_all. simpl body.
  destruct (Z.eqb_spec (Z.of_nat (length (body r ++ drop read data))) L) as [He|_].
  { rewrite length_app in He. lia. }
  apply IH; [done|]. cbn [with_body headers body]. fold L.
  rewrite length_app, <- drop_drop, drop_all. cbn [length]. lia.
Qed.

Lemma RequestFromReader_loop_S fuel r pending (reader : list (list ascii)) :
  RequestFromReader_loop (S fuel) r pending reader =
  if done r then Some (Completed r)
  else
    match Read reader (bufSize - length pending) with
    | (_, Some e, _) => Some (Failed e)
    | (chunk, None, reader') =>
        match parse fuel r (pending ++ chunk) with
        | None => None
        | Some (Panicked _) => Some Crashed
        | Some (Returned _ _ (Some e)) => Some (Failed e)
        | Some (Returned r' readN None) =>
            RequestFromReader_loop fuel r' (drop readN (pending ++ chunk)) reader'
        end
    end.
Proof.
  cbn [RequestFromReader_loop]. by destruct (Read _ _) as [[chunk [e|]] reader'].
Qed.

Lemma reader_spins_S k r pending (reader : list (list ascii)) :
  reader_spins (S k) r pending reader =
  if done r then false
  else
    match Read reader (bufSize - length pending) with
    | (_, Some _, _) => false
    | (chunk, None, reader') =>
        if parse_spins 4 r (pending ++ chunk) 0 then true
        else match parse_loop 4 r (pending ++ chunk) 0 with
             | Some (Returned r' readN None) =>
                 bool_decide (r' = r ∧ drop readN (pending ++ chunk) = pending
                              ∧ reader' = reader)
                 || reader_spins k r' (drop readN (pending ++ chunk)) reader'
             | _ => false
             end
    end.
Proof.
  cbn [reader_spins]. by destruct (Read _ _) as [[chunk [e|]] reader'].
Qed.

Lemma reader_spins_sound k r pending (reader : list (list ascii)) :
  reader_spins k r pending reader = true →
  ∀ fuel, RequestFromReader_loop fuel r pending reader = None.
Proof.
  revert r pending reader. induction k as [|k IH]; intros r pending reader; [done|].
  rewrite reader_spins_S. destruct (done r) eqn:Hdone; [done|].
  destruct (Read reader _) as [[chunk [e|]] reader'] eqn:Hread; [done|].
  destruct (parse_spins 4 r (pending ++ chunk) 0) eqn:Hspin.
  { intros _ [|fuel]; [done|]. rewrite RequestFromReader_loop_S, Hdone, Hread.
    unfold parse. by rewrite (parse_spins_sound _ _ _ _ Hspin). }
  destruct (parse_loop 4 r (pending ++ chunk) 0) as [[r' n [e|]|?]|] eqn:Hparse; try done.
  assert (∀ fuel, RequestFromReader_loop fuel r' (drop n (pending ++ chunk)) reader' = None
          → RequestFromReader_loop (S fuel) r pending reader = None) as Hstep.
  { intros fuel Hnext. rewrite RequestFromReader_loop_S, Hdone, Hread.
    unfold parse. destruct (parse_loop fuel r (pending ++ chunk) 0) as [o|] eqn:Ho; [|done].
    by rewrite (parse_loop_det _ _ _ _ _ _ _ Ho Hparse). }
  intros [Hfix|Hk]%orb_true_iff fuel.
  - apply bool_decide_eq_true_1 in Hfix as (-> & Hp & ->). rewrite Hp in Hstep.
    induction fuel as [|fuel IHf]; [done|]. by apply Hstep.
  - destruct fuel as [|fuel]; [done|]. apply Hstep. by apply IH.
Qed.

(** C3, at the claim's own input: the request with a body of five bytes,
    read one byte a time, never ends in Done.  When the blank line arrives
    [Request.parse] enters the Body state with no body byte in the buffer
    yet, and its loop has no way out of that state short of the whole body:
    the call never returns, and neither does [RequestFromReader]. *)
Theorem RequestFromReader_byte_by_byte (fuel : nat) :
  RequestFromReader fuel
    (map (λ c, [c]) (lit "POST /a HTTP/1.1\r\nContent-Length: 5\r\n\r\nhello"))
  = None.
Proof. apply (reader_spins_sound 50). vm_compute. reflexivity. Qed.

End Spinning.

(** C5 as the claim states it fails: [long_header_request] is a complete
    request to [Request.parse], which takes all of it in one call, and
    [RequestFromReader] never returns on a source that delivers it: the
    buffer of 1024 bytes fills up with the unfinished header line, the next
    read is offered no room, and every turn from then on reads nothing and
    parses nothing. *)
Lemma RequestFromReader_long_header :
  (∃ r, @parse asciiTables 4 newRequest long_header_request
        = Some (Returned r (length long_header_request) None)
        ∧ state r = StateDone)
  ∧ @never_returns asciiTables _ _ [long_header_request].
Proof.
  split.
  - eexists. split; [vm_compute; reflexivity|reflexivity].
  - intros fuel. apply (@reader_spins_sound asciiTables 5). vm_compute. reflexivity.
Qed.

(** ** [RequestFromReader] on requests without a body *)

Section Driver.

Context `{UnicodeTables}.

Implicit Types r : Request.
Implicit Types h : Headers.
Implicit Types data buf ext pending l p x t : list ascii.
Implicit Types ls : list (list ascii).

Lemma app_prefix_split p x (a b : list ascii) :
  p ++ x = a ++ b → length a ≤ length p → ∃ p', p = a ++ p' ∧ p' ++ x = b.
Proof.
  intros Heq Hle. exists (drop (length a) p). split.
  - rewrite <- (take_drop (length a) p) at 1. f_equal.
    apply (f_equal (take (length a))) in Heq.
    by rewrite take_app_le, take_app_length in Heq.
  - apply (f_equal (drop (length a))) in Heq.
    by rewrite drop_app_le, drop_app_length in Heq.
Qed.

(** A buffer that stops short of the end of the first line holds no CRLF. *)
Lemma Index_short_prefix l p x t :
  bytes_Index l rn = None → p ++ x = l ++ rn ++ t →
  length p < length l + length rn → bytes_Index p rn = None.
Proof.
  intros Hl Heq Hlen. destruct (bytes_Index p rn) as [i|] eqn:Hi; [|done].
  pose proof (Index_Some_le _ _ _ Hi) as Hle.
  apply (Index_app_Some _ x) in Hi. rewrite Heq, Index_line in Hi by done.
  injection Hi as <-. lia.
Qed.

(** A buffer with no CRLF in it stops short of the end of the first line. *)
Lemma no_line_short l p x t :
  bytes_Index l rn = None → p ++ x = l ++ rn ++ t →
  bytes_Index p rn = None → length p < length l + length rn.
Proof.
  intros Hl Heq Hp. destruct (decide (length p < length l + length rn)) as [|Hge]; [done|].
  rewrite app_assoc in Heq.
  destruct (app_prefix_split p x (l ++ rn) t Heq) as (p' & -> & _).
  { rewrite length_app. lia. }
  rewrite <- app_assoc, Index_line in Hp; done.
Qed.

(** A header block starts with a line that holds no CRLF: its first field
    line, or the empty line that ends it. *)
Lemma header_block_first ls :
  Forall (λ l, well_formed l = true) ls → Forall fits ls →
  ∃ l t, header_block ls = l ++ rn ++ t ∧ bytes_Index l rn = None ∧ fits l.
Proof.
  intros Hwf Hfit. destruct ls as [|l ls].
  - exists [], []. split; [done|split; [done|]]. unfold fits, bufSize. simpl. lia.
  - exists l, (header_block ls). apply Forall_cons in Hwf as [Hl%well_formed_inv _].
    apply Forall_cons in Hfit as [Hfit _]. split; [|by destruct Hl].
    unfold header_block, field_lines. simpl. by rewrite <- !app_assoc.
Qed.

(** [Headers.Parse] on a buffer that holds the start of a header block and
    not all of it: it commits the [k] field lines that are complete, consumes
    them, and asks for more. *)
Lemma Headers_Parse_prefix ls :
  Forall (λ l, well_formed l = true) ls →
  ∀ h buf ext, buf ++ ext = header_block ls → ext ≠ [] →
  ∃ k, Headers_Parse h buf
       = (committed (take k ls) h, (length (field_lines (take k ls)), false, None))
     ∧ drop (length (field_lines (take k ls))) buf ++ ext = header_block (drop k ls).
Proof.
  induction 1 as [|l ls Hl Hls IH]; intros h buf ext Heq Hext.
  - exists 0. split; [|done]. rewrite Headers_Parse_unfold.
    rewrite (Index_short_prefix [] buf ext []); [done..|].
    apply (f_equal length) in Heq. rewrite length_app in Heq.
    destruct ext; [done|]. simpl in *. lia.
  - pose proof Hl as (Hi & Hne & name & value & Hp)%well_formed_inv.
    assert (header_block (l :: ls) = l ++ rn ++ header_block ls) as Hblock.
    { unfold header_block, field_lines. simpl. by rewrite <- !app_assoc. }
    rewrite Hblock in Heq.
    destruct (decide (length buf < length l + length rn)) as [Hshort|Hlong].
    + exists 0. split; [|change (buf ++ ext = header_block (l :: ls)); by rewrite Hblock].
      by rewrite Headers_Parse_unfold, (Index_short_prefix l buf ext _ Hi Heq Hshort).
    + rewrite app_assoc in Heq.
      destruct (app_prefix_split buf ext (l ++ rn) _ Heq) as (buf' & -> & Heq').
      { rewrite length_app. lia. }
      destruct (IH (Headers_Set h name value) buf' ext Heq' Hext) as (k & Hparse & Hrest).
      exists (S k). rewrite <- app_assoc, Headers_Parse_unfold, Index_line by done.
      destruct (length l) as [|j] eqn:Hj; [by destruct l|]. rewrite <- Hj.
      rewrite take_app_length, Hp, (app_assoc l rn), <- (length_app l rn), drop_app_length.
      rewrite Hparse. simpl. unfold committed at 2. simpl. unfold commit1 at 2. rewrite Hp.
      assert (length (field_lines (l :: take k ls))
              = length (l ++ rn) + length (field_lines (take k ls))) as ->.
      { unfold field_lines. simpl. by rewrite length_app. }
      split; [done|]. by rewrite <- drop_drop, drop_app_length.
Qed.

(** A turn at offset [read] is the turn on [data[read:]], counted from
    [read]. *)
Lemma parse_turn_shift r data read :
  parse_turn r data read =
  match parse_turn r (drop read data) 0 with
  | Again r' n => Again r' (read + n)
  | Leave o => Leave (shift_outcome read o)
  end.
Proof.
  unfold parse_turn. rewrite drop_0. destruct (state r).
  - destruct (parseRequestLine _) as [[[rl|] n] [e|]]; try done;
      destruct (n =? 0); simpl; by rewrite ?Nat.add_0_r.
  - destruct (Headers_Parse _ _) as [h [[n d] [e|]]]; [done|].
    destruct (n =? 0); simpl; by rewrite ?Nat.add_0_r.
  - simpl. by rewrite Nat.add_0_r.
  - destruct (_ =? 0)%Z; simpl; [by rewrite Nat.add_0_r|].
    destruct (_ <? 0)%Z; [done|]. by destruct (_ =? _)%Z.
Qed.

Lemma shift_outcome_shift a b o :
  shift_outcome a (shift_outcome b o) = shift_outcome (a + b) o.
Proof. destruct o as [r n [e|]|r]; simpl; try done. f_equal. lia. Qed.

Lemma parse_loop_shift fuel r data read :
  parse_loop fuel r data read = shift_outcome read <$> parse_loop fuel r (drop read data) 0.
Proof.
  revert r data read. induction fuel as [|fuel IH]; intros r data read; [done|].
  rewrite !parse_loop_S, parse_turn_shift.
  destruct (parse_turn r (drop read data) 0) as [r' n|o]; [|done].
  rewrite (IH r' data), (IH r' (drop read data)), drop_drop.
  destruct (parse_loop fuel r' _ 0) as [o|]; simpl; [|done].
  by rewrite shift_outcome_shift.
Qed.

(** The header section is complete only when its last two bytes have been
    consumed. *)
Lemma Headers_Parse_done_pos h data h' n :
  Headers_Parse h data = (h', (n, true, None)) → n ≠ 0.
Proof.
  rewrite Headers_Parse_unfold. destruct (bytes_Index data rn) as [[|i]|]; try done.
  - by intros [= <- <-].
  - destruct (parseHeader _) as [e|[name value]]; [done|].
    destruct (Headers_Parse _ _) as [h1 [[k d] [e|]]]; simpl; [done|].
    by intros [= _ <- _].
Qed.

(** In the Headers state, on a buffer whose header section is not complete:
    the call commits and consumes what [Headers.Parse] took and returns. *)
Lemma parse_Headers_more r data h' n :
  state r = StateHeaders →
  Headers_Parse (headers r) data = (h', (n, false, None)) →
  parse 2 r data = Some (Returned (with_headers r h') n None).
Proof.
  intros Hst Hparse. unfold parse. rewrite parse_loop_S. unfold parse_turn at 1.
  rewrite Hst, drop_0, Hparse. destruct n as [|n]; [done|].
  cbn [Nat.eqb]. rewrite parse_loop_S. unfold parse_turn. cbn [state with_headers headers].
  rewrite Hst. apply Headers_Parse_rest in Hparse. cbn [Nat.add].
  rewrite (Headers_Parse_unfold h'), Hparse. done.
Qed.

(** In the Headers state, on a buffer that completes the header section of a
    request with no body: the call goes through Body to Done and returns. *)
Lemma parse_Headers_done r data h' n :
  state r = StateHeaders →
  Headers_Parse (headers r) data = (h', (n, true, None)) →
  getInt h' (lit "content-length") 0 = 0%Z →
  parse 3 r data = Some (Returned (with_state (with_headers r h') StateDone) n None).
Proof.
  intros Hst Hparse Hlen. unfold parse. rewrite parse_loop_S. unfold parse_turn at 1.
  rewrite Hst, drop_0, Hparse. pose proof (Headers_Parse_done_pos _ _ _ _ Hparse) as Hn.
  destruct n as [|n]; [done|]. cbn [Nat.eqb].
  rewrite parse_loop_S. unfold parse_turn at 1. cbn [state with_state with_headers headers].
  rewrite Hlen. cbn [Z.eqb]. rewrite parse_loop_S. done.
Qed.

Lemma committed_app ls ls' h : committed (ls ++ ls') h = committed ls' (committed ls h).
Proof. apply foldl_app. Qed.

(** [Request.parse] in the Headers state on a buffer that holds the start of
    the header block of a request with no body. *)
Lemma parse_Headers_buf r buf ext ls :
  state r = StateHeaders →
  Forall (λ l, well_formed l = true) ls →
  buf ++ ext = header_block ls →
  getInt (committed ls (headers r)) (lit "content-length") 0 = 0%Z →
  (ext = [] ∧
   parse 3 r buf
   = Some (Returned (with_state (with_headers r (committed ls (headers r))) StateDone)
             (length buf) None))
  ∨ (ext ≠ [] ∧ ∃ k n,
       parse 3 r buf
       = Some (Returned (with_headers r (committed (take k ls) (headers r))) n None)
       ∧ drop n buf ++ ext = header_block (drop k ls)
       ∧ bytes_Index (drop n buf) rn = None).
Proof.
  intros Hst Hls Heq Hlen. destruct (decide (ext = [])) as [->|Hext].
  - left. split; [done|]. rewrite app_nil_r in Heq. subst buf.
    apply parse_Headers_done; [done| |done]. by apply Headers_Parse_block.
  - right. split; [done|].
    destruct (Headers_Parse_prefix ls Hls (headers r) buf ext Heq Hext) as (k & Hparse & Hrest).
    exists k, (length (field_lines (take k ls))). split; [|split; [done|]].
    + apply (parse_loop_mono 2); [|lia]. by apply parse_Headers_more.
    + by eapply Headers_Parse_rest.
Qed.

(** What [parseRequestLine] returns depends on the first line only. *)
Lemma parseRequestLine_first_line l t :
  bytes_Index l rn = None → parseRequestLine (l ++ rn ++ t) = parseRequestLine (l ++ rn).
Proof.
  intros Hl. unfold parseRequestLine, SEPARATOR. fold rn.
  rewrite (Index_line l t Hl). rewrite <- (app_nil_r (l ++ rn)), <- app_assoc.
  by rewrite (Index_line l [] Hl), !take_app_length.
Qed.

(** What a source of chunks gives to a read that offers room. *)
Lemma chunks_Read_next (reader : list (list ascii)) k :
  0 < k → concat reader ≠ [] →
  ∃ chunk reader', Read reader k = (chunk, None, reader')
    ∧ chunk ++ concat reader' = concat reader
    ∧ supply reader' < supply reader.
Proof.
  intros Hk Hne. destruct reader as [|c cs]; [done|].
  eexists _, _. split; [reflexivity|]. unfold supply.
  case_bool_decide as Hd; simpl.
  - rewrite <- (take_drop k c) at 2. rewrite Hd, app_nil_r. split; [done|].
    rewrite length_app. lia.
  - rewrite app_assoc, take_drop. split; [done|].
    rewrite !length_app, length_drop. destruct c; [by rewrite drop_nil in Hd|]. simpl. lia.
Qed.

(** One turn of the loop of [RequestFromReader] in which the read and the
    parse succeed. *)
Lemma RequestFromReader_loop_turn fuel k r pending (reader reader' : list (list ascii))
    chunk r' n :
  done r = false →
  Read reader (bufSize - length pending) = (chunk, None, reader') →
  parse k r (pending ++ chunk) = Some (Returned r' n None) →
  k ≤ fuel →
  RequestFromReader_loop (S fuel) r pending reader
  = RequestFromReader_loop fuel r' (drop n (pending ++ chunk)) reader'.
Proof.
  intros Hdone Hread Hparse Hk. rewrite RequestFromReader_loop_S, Hdone, Hread.
  unfold parse in *. by rewrite (parse_loop_mono _ _ _ _ _ _ Hparse Hk).
Qed.

Lemma parse_Init_wait r data :
  state r = StateInit → bytes_Index data rn = None →
  parse 1 r data = Some (Returned r 0 None).
Proof.
  intros Hst Hi. unfold parse. rewrite parse_loop_S. unfold parse_turn.
  by rewrite Hst, drop_0, parseRequestLine_no_CRLF.
Qed.

Lemma parse_Init_line fuel r data line n :
  state r = StateInit → parseRequestLine data = (Some line, n, None) → n ≠ 0 →
  parse (S fuel) r data
  = shift_outcome n
    <$> parse fuel (with_state (with_RequestLine r line) StateHeaders) (drop n data).
Proof.
  intros Hst Hline Hn. unfold parse. rewrite parse_loop_S. unfold parse_turn.
  rewrite Hst, drop_0, Hline. destruct n as [|n]; [done|]. cbn [Nat.eqb Nat.add].
  apply parse_loop_shift.
Qed.

(** No read is offered an empty buffer, and no read finds the source at its
    end, while the buffer holds no complete line of what is still to come. *)
Lemma read_next pending (reader : list (list ascii)) l t :
  pending ++ concat reader = l ++ rn ++ t →
  bytes_Index l rn = None → fits l → bytes_Index pending rn = None →
  ∃ chunk reader', Read reader (bufSize - length pending) = (chunk, None, reader')
    ∧ (pending ++ chunk) ++ concat reader' = l ++ rn ++ t
    ∧ supply reader' < supply reader.
Proof.
  intros Heq Hl Hfit Hp.
  pose proof (no_line_short _ _ _ _ Hl Heq Hp) as Hshort. unfold fits in Hfit.
  destruct (chunks_Read_next reader (bufSize - length pending))
    as (chunk & reader' & Hread & Hcat & Hless); [lia| |].
  - intros Hnil. rewrite Hnil, app_nil_r in Heq. subst pending.
    by rewrite Index_line in Hp.
  - exists chunk, reader'. by rewrite <- app_assoc, Hcat.
Qed.

(** From the Headers state on: [RequestFromReader] completes the request. *)
Lemma RequestFromReader_loop_Headers m :
  ∀ (reader : list (list ascii)) r pending ls fuel,
  supply reader = m →
  state r = StateHeaders →
  pending ++ concat reader = header_block ls →
  Forall (λ l, well_formed l = true) ls → Forall fits ls →
  bytes_Index pending rn = None →
  getInt (committed ls (headers r)) (lit "content-length") 0 = 0%Z →
  m + 5 ≤ fuel →
  RequestFromReader_loop fuel r pending reader
  = Some (Completed (with_state (with_headers r (committed ls (headers r))) StateDone)).
Proof.
  induction m as [m IH] using lt_wf_ind.
  intros reader r pending ls fuel <- Hst Heq Hwf Hfit Hp Hlen Hfuel.
  destruct fuel as [|fuel]; [lia|].
  destruct (header_block_first ls Hwf Hfit) as (l & t & Hblock & Hl & Hlfit).
  rewrite Hblock in Heq.
  destruct (read_next _ _ _ _ Heq Hl Hlfit Hp) as (chunk & reader' & Hread & Hcat & Hless).
  rewrite <- Hblock in Hcat.
  assert (done r = false) as Hdone by (unfold done; by rewrite Hst).
  destruct (parse_Headers_buf r _ _ ls Hst Hwf Hcat Hlen)
    as [[Hnil Hparse]|(Hext & k & n & Hparse & Hrest & Hnone)].
  - rewrite (RequestFromReader_loop_turn _ 3 _ _ _ _ _ _ _ Hdone Hread Hparse) by lia.
    destruct fuel as [|fuel]; [lia|]. by rewrite RequestFromReader_loop_S.
  - rewrite (RequestFromReader_loop_turn _ 3 _ _ _ _ _ _ _ Hdone Hread Hparse) by lia.
    rewrite (IH (supply reader') Hless reader' _ _ (drop k ls)); try done; try lia.
    + cbn [headers with_headers]. rewrite <- committed_app, take_drop. done.
    + by apply Forall_drop.
    + by apply Forall_drop.
    + cbn [headers with_headers]. by rewrite <- committed_app, take_drop.
Qed.

(** From the Init state on. *)
Lemma RequestFromReader_loop_Init m :
  ∀ (reader : list (list ascii)) r pending l line ls fuel,
  supply reader = m →
  state r = StateInit →
  pending ++ concat reader = l ++ rn ++ header_block ls →
  bytes_Index l rn = None → fits l →
  parseRequestLine (l ++ rn) = (Some line, length l + length rn, None) →
  Forall (λ l, well_formed l = true) ls → Forall fits ls →
  bytes_Index pending rn = None →
  getInt (committed ls (headers r)) (lit "content-length") 0 = 0%Z →
  m + 6 ≤ fuel →
  RequestFromReader_loop fuel r pending reader
  = Some (Completed
            (with_state
               (with_headers (with_RequestLine r line) (committed ls (headers r)))
               StateDone)).
Proof.
  induction m as [m IH] using lt_wf_ind.
  intros reader r pending l line ls fuel <- Hst Heq Hl Hlfit Hline Hwf Hfit Hp Hlen Hfuel.
  destruct fuel as [|fuel]; [lia|].
  destruct (read_next _ _ _ _ Heq Hl Hlfit Hp) as (chunk & reader' & Hread & Hcat & Hless).
  assert (done r = false) as Hdone by (unfold done; by rewrite Hst).
  set (buf := pending ++ chunk) in *.
  destruct (decide (length buf < length l + length rn)) as [Hshort|Hlong].
  - pose proof (Index_short_prefix _ _ _ _ Hl Hcat Hshort) as Hnone.
    rewrite (RequestFromReader_loop_turn _ 1 _ _ _ _ _ _ _ Hdone Hread
               (parse_Init_wait r buf Hst Hnone)) by lia.
    rewrite drop_0. apply (IH (supply reader') Hless reader' r buf l line ls); try done; lia.
  - rewrite app_assoc in Hcat.
    destruct (app_prefix_split buf _ (l ++ rn) _ Hcat) as (buf' & Hbuf & Hcat').
    { rewrite length_app. lia. }
    set (r1 := with_state (with_RequestLine r line) StateHeaders).
    assert (parse 4 r buf
            = shift_outcome (length l + length rn) <$> parse 3 r1 buf') as Hparse.
    { rewrite (parse_Init_line 3 r buf line (length l + length rn)); [|done| |simpl; lia].
      - by rewrite Hbuf, <- (length_app l rn), drop_app_length.
      - by rewrite Hbuf, <- app_assoc, parseRequestLine_first_line. }
    destruct (parse_Headers_buf r1 buf' _ ls eq_refl Hwf Hcat' Hlen)
      as [[Hnil Hparse1]|(Hext & k & n & Hparse1 & Hrest & Hnone)];
      rewrite Hparse1 in Hparse; cbn [fmap option_fmap option_map shift_outcome] in Hparse;
      rewrite (RequestFromReader_loop_turn _ 4 _ _ _ _ _ _ _ Hdone Hread Hparse) by lia.
    + destruct fuel as [|fuel]; [lia|]. by rewrite RequestFromReader_loop_S.
    + fold buf. rewrite Hbuf, <- (length_app l rn), <- drop_drop, drop_app_length.
      rewrite (RequestFromReader_loop_Headers (supply reader') reader' _ _ (drop k ls));
        try done; try lia.
      * cbn [headers with_headers with_state with_RequestLine r1].
        by rewrite <- committed_app, take_drop.
      * by apply Forall_drop.
      * by apply Forall_drop.
      * cbn [headers with_headers with_state with_RequestLine r1].
        by rewrite <- committed_app, take_drop.
Qed.

End Driver.

(** * Further properties *)

(** ** One-byte separators *)

Section OneByte.

Implicit Types s a : list ascii.
Implicit Types c : ascii.

Lemma Index_byte_None s c : bytes_Index s [c] = None ↔ c ∉ s.
Proof.
  induction s as [|b s IH]; simpl.
  - split; [set_solver|done].
  - rewrite andb_true_r, not_elem_of_cons. case_bool_decide as Hb.
    + split; [done|]. by intros [? _].
    + destruct (bytes_Index s [c]) eqn:Hi; simpl.
      * split; [done|]. intros [_ Hs]. by apply IH in Hs.
      * split; [|done]. intros _. split; [done|]. by apply IH.
Qed.

Lemma Index_byte_app a s c : c ∉ a → bytes_Index (a ++ c :: s) [c] = Some (length a).
Proof.
  induction a as [|b a IH]; intros Hn; simpl.
  - by rewrite bool_decide_eq_true_2.
  - rewrite andb_true_r, bool_decide_eq_false_2 by set_solver.
    rewrite IH by set_solver. done.
Qed.

Lemma Index_byte_Some s c i :
  bytes_Index s [c] = Some i → s = take i s ++ c :: drop (S i) s ∧ c ∉ take i s.
Proof.
  intros Hi. split.
  - rewrite (Index_Some_split _ _ _ Hi) at 1. simpl. by rewrite Nat.add_1_r.
  - apply Index_byte_None. by apply Index_take_None.
Qed.

End OneByte.

(** ** More on the header table *)

Section HeadersMore.

Context `{UnicodeTables}.

Implicit Types h : Headers.
Implicit Types data buf l name value raw : list ascii.

(** X1: what [Get] reads after a [Set]: the value just set under every name
    with the same lower-case form, and what the table held before under
    every other name. *)
Theorem Get_after_Set h name value name' :
  Headers_Get (Headers_Set h name value) name'
  = if decide (strings_ToLower name = strings_ToLower name') then value
    else Headers_Get h name'.
Proof.
  unfold Headers_Get, Headers_Set. rewrite lookup_insert. by case_decide.
Qed.

Lemma lowerByte_ASCII c : isASCII c = true → isASCII (lowerByte c) = true.
Proof. by destruct c as [[] [] [] [] [] [] [] []]. Qed.

Lemma lowerByte_not_upper c : isUpper (lowerByte c) = false.
Proof. by destruct c as [[] [] [] [] [] [] [] []]. Qed.

(** On ASCII input [strings.ToLower] gives a string it leaves alone. *)
Lemma ToLower_idempotent (s : list ascii) :
  forallb isASCII s = true → strings_ToLower (strings_ToLower s) = strings_ToLower s.
Proof.
  intros Hs.
  assert (strings_ToLower s = if existsb isUpper s then map lowerByte s else s) as Hlow.
  { unfold strings_ToLower. by rewrite Hs. }
  rewrite Hlow. destruct (existsb isUpper s) eqn:Hup; [|done].
  unfold strings_ToLower.
  assert (forallb isASCII (map lowerByte s) = true) as ->.
  { rewrite forallb_forall in *. intros c (b & <- & Hb)%in_map_iff.
    apply lowerByte_ASCII. by apply Hs. }
  assert (existsb isUpper (map lowerByte s) = false) as ->; [|done].
  apply not_true_is_false. intros (c & (b & <- & _)%in_map_iff & Hc)%existsb_exists.
  by rewrite lowerByte_not_upper in Hc.
Qed.

Lemma isToken_ASCII name : isToken name = true → forallb isASCII name = true.
Proof.
  unfold isToken. rewrite !forallb_forall. intros Hall c Hc.
  specialize (Hall c Hc). unfold tokenChar in Hall. by apply andb_true_iff in Hall as [? _].
Qed.

Lemma Index_colon_token name raw :
  isToken name = true → bytes_Index (name ++ ":"%char :: raw) (lit ":") = Some (length name).
Proof.
  intros Hname. apply Index_byte_app. intros Hin.
  unfold isToken in Hname. rewrite forallb_forall in Hname.
  apply list_elem_of_In in Hin. by apply Hname in Hin.
Qed.

Lemma HasSuffix_space name : isToken name = true → bytes_HasSuffix name (lit " ") = false.
Proof.
  intros Hname. unfold bytes_HasSuffix. apply not_true_is_false.
  intros [Hlen Hdrop]%andb_true_iff.
  apply bool_decide_eq_true_1 in Hdrop.
  assert (" "%char ∈ name) as Hin.
  { rewrite <- (take_drop (length name - length (lit " ")) name), Hdrop. set_solver. }
  by rewrite (isToken_space name Hin) in Hname.
Qed.

Lemma parseHeader_token l name value :
  parseHeader l = inr (name, value) → isToken name = true.
Proof.
  unfold parseHeader. destruct (bytes_Cut l (lit ":")) as [[name' raw] [|]]; [|done].
  destruct (isToken name') eqn:Htok; [|done]. simpl.
  destruct (bytes_HasSuffix _ _); [done|]. by intros [= <- _].
Qed.

(** X2: the field lines [parseHeader] accepts are those of the form
    [name:raw] with [name] a token in the sense of [isToken] (the empty
    name included); the line is cut at its first colon, and the value is the
    rest with the surrounding white space trimmed. *)
Theorem parseHeader_accepts l name value :
  parseHeader l = inr (name, value)
  ↔ isToken name = true
    ∧ ∃ raw, l = name ++ ":"%char :: raw ∧ value = bytes_TrimSpace raw.
Proof.
  unfold parseHeader, bytes_Cut. split.
  - destruct (bytes_Index l (lit ":")) as [i|] eqn:Hi; [|done].
    destruct (isToken (take i l)) eqn:Htok; [|done]. simpl.
    destruct (bytes_HasSuffix _ _); [done|]. intros [= <- <-].
    split; [done|]. exists (drop (i + length (lit ":")) l). split; [|done].
    apply Index_byte_Some in Hi as [Hl _]. by rewrite Nat.add_1_r.
  - intros (Htok & raw & -> & ->). rewrite Index_colon_token by done.
    rewrite take_app_length, Htok. simpl. rewrite HasSuffix_space by done.
    rewrite (cons_middle ":"%char), app_assoc.
    replace (length name + 1) with (length (name ++ [":"%char]))
      by (rewrite length_app; done).
    by rewrite drop_app_length.
Qed.

(** X3: [parseHeader] never returns the error "malformed field name": a
    name that ends in a space has already failed the token test, so the
    suffix test that follows it decides nothing. *)
Theorem parseHeader_errors l :
  match parseHeader l with
  | inl e => e = malformed_field_line ∨ e = malformed_header_name
  | inr _ => True
  end.
Proof.
  unfold parseHeader. destruct (bytes_Cut l (lit ":")) as [[name raw] [|]]; [|by left].
  destruct (isToken name) eqn:Htok; simpl; [|by right].
  by rewrite HasSuffix_space.
Qed.

Lemma shift_fst (k : nat) (res : Headers * (nat * bool * option error)) :
  (shift k res).1 = res.1.
Proof. by destruct res as [h [[n d] e]]. Qed.

Lemma Set_keys_lowered h name value :
  keys_lowered h → isToken name = true → keys_lowered (Headers_Set h name value).
Proof.
  intros Hh Htok k v. unfold Headers_Set. rewrite lookup_insert. case_decide as Hk.
  - intros _. subst k. apply ToLower_idempotent. by apply isToken_ASCII.
  - apply Hh.
Qed.

(** X4: [Headers.Parse] keeps the table's keys in lower case: if every key
    is its own lower-case form before the call, so is every key after it,
    whatever the data and however the call ends, and [Get] finds every entry
    of the table under its key. *)
Theorem Headers_Parse_keys_lowered h data :
  keys_lowered h →
  keys_lowered (Headers_Parse h data).1
  ∧ ∀ k v, (Headers_Parse h data).1 !! k = Some v →
           Headers_Get (Headers_Parse h data).1 k = v.
Proof.
  intros Hh. assert (keys_lowered (Headers_Parse h data).1) as Hkeys.
  { remember (length data) as m eqn:Hm. revert h data Hh Hm.
    induction m as [m IH] using lt_wf_ind. intros h data Hh ->.
    rewrite Headers_Parse_unfold.
    destruct (bytes_Index data rn) as [[|i]|] eqn:Hi; try done.
    destruct (parseHeader _) as [e|[name value]] eqn:Hp; [done|].
    rewrite shift_fst. apply Index_Some_le in Hi. simpl in Hi.
    apply (IH (length (drop (S i + length rn) data)));
      [|by apply Set_keys_lowered; [|by apply parseHeader_token in Hp]|done].
    rewrite length_drop. simpl. lia. }
  split; [done|]. intros k v Hk. unfold Headers_Get.
  by rewrite (Hkeys k v Hk), Hk.
Qed.

Lemma Headers_Parse_lines h data h' n d e :
  Headers_Parse h data = (h', (n, d, e)) →
  n ≤ length data ∧ (0 < n → ∃ pre, take n data = pre ++ rn).
Proof.
  remember (length data) as m eqn:Hm. revert h data h' n d e Hm.
  induction m as [m IH] using lt_wf_ind. intros h data h' n d e ->.
  rewrite Headers_Parse_unfold.
  destruct (bytes_Index data rn) as [[|i]|] eqn:Hi.
  - intros [= <- <- <- <-]. pose proof (Index_Some_le _ _ _ Hi) as Hle.
    split; [done|]. intros _. exists []. rewrite (Index_Some_split _ _ _ Hi) at 1.
    rewrite take_0. reflexivity.
  - pose proof (Index_Some_le _ _ _ Hi) as Hle. simpl in Hle.
    pose proof (Index_Some_split _ _ _ Hi) as Hsplit.
    destruct (parseHeader _) as [e'|[name value]]; [intros [= <- <- <- <-]; split; lia|].
    destruct (Headers_Parse _ (drop _ data)) as [h1 [[k d1] e1]] eqn:Hrec.
    destruct (IH (length (drop (S i + length rn) data))
                ltac:(rewrite length_drop; simpl; lia) _ _ _ _ _ _ eq_refl Hrec)
      as [Hk Hpre].
    rewrite length_drop in Hk. destruct e1 as [e1|]; simpl; intros [= <- <- <- <-];
      [split; lia|]. split; [simpl in *; lia|]. intros _.
    change (S (i + 2 + k)) with (S i + length rn + k).
    rewrite <- take_take_drop.
    assert (take (S i + length rn) data = take (S i) data ++ rn) as ->.
    { rewrite Hsplit at 1. rewrite app_assoc, take_app_length'; [done|].
      rewrite length_app, length_take_le by lia. done. }
    destruct k as [|k].
    + exists (take (S i) data). by rewrite take_0, app_nil_r.
    + destruct (Hpre ltac:(lia)) as [pre ->]. exists ((take (S i) data ++ rn) ++ pre).
      by rewrite <- !app_assoc.
  - intros [= <- <- <- <-]. split; lia.
Qed.

(** X5: [Headers.Parse] consumes whole lines of the buffer and nothing
    else: the count it returns is within the buffer, and what it counts, if
    anything, ends in CRLF. *)
Theorem Headers_Parse_consumes_lines h data h' n d e :
  Headers_Parse h data = (h', (n, d, e)) →
  n ≤ length data ∧ (0 < n → ∃ pre, take n data = pre ++ rn).
Proof. apply Headers_Parse_lines. Qed.

(** X6: [Headers.Parse] asks for more data, with nothing consumed, nothing
    committed and no error, exactly when the buffer holds no CRLF; the empty
    buffer is one such. *)
Theorem Headers_Parse_wants_more h data :
  Headers_Parse h data = (h, (0, false, None)) ↔ bytes_Index data rn = None.
Proof.
  rewrite Headers_Parse_unfold.
  destruct (bytes_Index data rn) as [[|i]|]; [by split| |by split].
  destruct (parseHeader _) as [e|[name value]]; [by split|].
  destruct (Headers_Parse _ _) as [h1 [[k d1] [e1|]]]; by split.
Qed.

Lemma Headers_Parse_stops_at_blank_line_aux h (ls : list (list ascii)) rest :
  Forall (λ l, well_formed l = true) ls →
  Headers_Parse h (header_block ls ++ rest)
  = (committed ls h, (length (header_block ls), true, None)).
Proof.
  intros Hls. by rewrite Headers_Parse_app, (Headers_Parse_block ls h Hls).
Qed.

(** X7: [Headers.Parse] stops at the blank line: on a header block followed
    by any bytes (a body, the next request) it commits the field lines,
    consumes the block and nothing of what follows it. *)
Theorem Headers_Parse_stops_at_blank_line h (ls : list (list ascii)) rest :
  Forall (λ l, well_formed l = true) ls →
  Headers_Parse h (header_block ls ++ rest)
  = (committed ls h, (length (header_block ls), true, None)).
Proof. apply Headers_Parse_stops_at_blank_line_aux. Qed.

(** X8: feeding in chunks gives what the one call gives for every sequence
    of bytes the one call parses without error, a header block or not:
    whole or cut short, with or without bytes after the blank line. *)
Theorem feed_any_bytes h (chunks : list (list ascii)) :
  (Headers_Parse h (concat chunks)).2.2 = None →
  feed h [] chunks 0 = Headers_Parse h (concat chunks).
Proof.
  intros He. rewrite (feed_whole chunks h [] 0); [|done|done].
  apply shift_0_Parse.
Qed.

Lemma feed_error chunks h pending total h' n d e :
  bytes_Index pending rn = None →
  Headers_Parse h (pending ++ concat chunks) = (h', (n, d, Some e)) →
  ∃ total', feed h pending chunks total = (h', (total', false, Some e)).
Proof.
  revert h pending total n d. induction chunks as [|c chunks IH];
    intros h pending total n d Hp.
  - simpl. rewrite app_nil_r, Headers_Parse_unfold, Hp. done.
  - simpl. rewrite app_assoc, Headers_Parse_app.
    destruct (Headers_Parse h (pending ++ c)) as [h1 [[n1 d1] e1]] eqn:Hc.
    destruct e1 as [e1|].
    + destruct d1; intros [= <- <- <- <-]; by eexists.
    + destruct d1; [done|].
      destruct (Headers_Parse h1 _) as [h2 [[n2 d2] [e2|]]] eqn:Hrest; simpl; [|done].
      intros [= <- <- <- <-]. eapply IH; [|exact Hrest]. by eapply Headers_Parse_rest.
Qed.

(** X9: an error does not depend on the chunking: when the one call on the
    bytes fails, feeding them in chunks fails at some call with the same
    error, and leaves the same table. *)
Theorem feed_error_any_chunks h (chunks : list (list ascii)) h' n d e :
  Headers_Parse h (concat chunks) = (h', (n, d, Some e)) →
  ∃ total, feed h [] chunks 0 = (h', (total, false, Some e)).
Proof. intros Hwhole. by eapply (feed_error chunks h []). Qed.

End HeadersMore.

Lemma Headers_Parse_keys_lowered_witness :
  let h' := (@Headers_Parse asciiTables NewHeaders (lit "Host: b\r\nFOO: c\r\nN@me: v\r\n")).1 in
  @keys_lowered asciiTables h'
  ∧ ∀ k v, h' !! k = Some v → @Headers_Get asciiTables h' k = v.
Proof.
  apply (@Headers_Parse_keys_lowered asciiTables NewHeaders).
  intros k v Hk. unfold NewHeaders in Hk. by rewrite lookup_empty in Hk.
Defined.

Lemma Headers_Parse_consumes_lines_witness :
  42 ≤ length (lit "Host: localhost:42069\r\nFoo:     barbar  \r\nBa")
  ∧ (0 < 42 → ∃ pre, take 42 (lit "Host: localhost:42069\r\nFoo:     barbar  \r\nBa")
                     = pre ++ rn).
Proof.
  apply (@Headers_Parse_consumes_lines asciiTables NewHeaders _
           {[ lit "host" := lit "localhost:42069"; lit "foo" := lit "barbar" ]}
           42 false None).
  vm_compute. reflexivity.
Defined.

Lemma Headers_Parse_stops_at_blank_line_witness :
  @Headers_Parse asciiTables NewHeaders
    (header_block [lit "Content-Length: 5"] ++ lit "hello")
  = (@committed asciiTables [lit "Content-Length: 5"] NewHeaders,
     (length (header_block [lit "Content-Length: 5"]), true, None)).
Proof.
  apply (@Headers_Parse_stops_at_blank_line asciiTables). repeat constructor.
Defined.

Lemma feed_any_bytes_witness :
  @feed asciiTables NewHeaders [] [lit "Host: b\r"; lit "\nFoo: c\r\nBa"; lit "r: "] 0
  = @Headers_Parse asciiTables NewHeaders
      (concat [lit "Host: b\r"; lit "\nFoo: c\r\nBa"; lit "r: "]).
Proof. apply (@feed_any_bytes asciiTables). reflexivity. Defined.

Lemma feed_error_any_chunks_witness :
  ∃ total,
    @feed asciiTables NewHeaders [] [lit "Host: b\r"; lit "\nN@me"; lit ": v\r\n\r\n"] 0
    = ({[ lit "host" := lit "b" ]}, (total, false, Some malformed_header_name)).
Proof.
  apply (@feed_error_any_chunks asciiTables NewHeaders
           [lit "Host: b\r"; lit "\nN@me"; lit ": v\r\n\r\n"] _ 0 false).
  vm_compute. reflexivity.
Defined.

(** ** More on [parseRequestLine] *)

Section RequestLineMore.

Implicit Types s a cur p m t : list ascii.
Implicit Types c : ascii.

Lemma elem_of_rev c cur : c ∈ rev cur ↔ c ∈ cur.
Proof. rewrite !list_elem_of_In. symmetry. apply in_rev. Qed.

Lemma split_byte_cons c b cur s :
  split_from [c] 0 cur (b :: s)
  = if bool_decide (c = b) then rev cur :: split_from [c] 0 [] s
    else split_from [c] 0 (b :: cur) s.
Proof. simpl. rewrite andb_true_r. by case_bool_decide. Qed.

Lemma split_byte_nonempty c cur s : split_from [c] 0 cur s ≠ [].
Proof.
  revert cur. induction s as [|b s IH]; intros cur; [done|].
  rewrite split_byte_cons. by case_bool_decide.
Qed.

(** Putting the byte back between the pieces gives the slice that was
    split. *)
Lemma split_byte_join c cur s : join_byte c (split_from [c] 0 cur s) = rev cur ++ s.
Proof.
  revert cur. induction s as [|b s IH]; intros cur; [by rewrite app_nil_r|].
  rewrite split_byte_cons. case_bool_decide as Hb.
  - subst b. pose proof (split_byte_nonempty c [] s) as Hne.
    destruct (split_from [c] 0 [] s) as [|q qs] eqn:Hs; [done|].
    change (join_byte c (rev cur :: q :: qs)) with (rev cur ++ c :: join_byte c (q :: qs)).
    by rewrite <- Hs, IH.
  - rewrite IH. simpl. by rewrite <- app_assoc.
Qed.

(** No piece holds the byte. *)
Lemma split_byte_pieces c cur s :
  c ∉ cur → Forall (λ p, c ∉ p) (split_from [c] 0 cur s).
Proof.
  revert cur. induction s as [|b s IH]; intros cur Hcur.
  - constructor; [|done]. by rewrite elem_of_rev.
  - rewrite split_byte_cons. case_bool_decide as Hb.
    + constructor; [by rewrite elem_of_rev|]. apply IH. apply not_elem_of_nil.
    + apply IH. by apply not_elem_of_cons.
Qed.

Lemma split_byte_no_sep c cur a : c ∉ a → split_from [c] 0 cur a = [rev cur ++ a].
Proof.
  revert cur. induction a as [|b a IH]; intros cur Ha; [by rewrite app_nil_r|].
  rewrite split_byte_cons, bool_decide_eq_false_2 by set_solver.
  rewrite IH by set_solver. simpl. by rewrite <- app_assoc.
Qed.

Lemma split_byte_app c cur a s :
  c ∉ a →
  split_from [c] 0 cur (a ++ c :: s) = (rev cur ++ a) :: split_from [c] 0 [] s.
Proof.
  revert cur. induction a as [|b a IH]; intros cur Ha.
  - simpl app. by rewrite split_byte_cons, bool_decide_eq_true_2, app_nil_r.
  - simpl app. rewrite split_byte_cons, bool_decide_eq_false_2 by set_solver.
    rewrite IH by set_solver. simpl. by rewrite <- app_assoc.
Qed.

(** What [parseRequestLine] returns has one of three shapes: nothing at all
    (more data wanted), an error, or a request line with the count of its
    bytes; the count is never 0 with a request line, and never more than the
    buffer. *)
Lemma parseRequestLine_shape (b : list ascii) rl n err :
  parseRequestLine b = (rl, n, err) →
  n ≤ length b ∧ (is_Some err → rl = None ∧ n = 0) ∧ (rl = None ↔ n = 0).
Proof.
  unfold parseRequestLine. destruct (bytes_Index b SEPARATOR) as [i|] eqn:Hi.
  - apply Index_Some_le in Hi.
    destruct (negb _); [intros [= <- <- <-]; split; [lia|by split]|].
    destruct (_ || _); [intros [= <- <- <-]; split; [lia|by split]|].
    intros [= <- <- <-]. split; [done|]. split; [by intros [? ?]|].
    simpl. split; [done|lia].
  - intros [= <- <- <-]. split; [lia|by split].
Qed.

(** X10: a request line [parseRequestLine] accepts has the form
    [METHOD SP TARGET SP HTTP/1.1]: the line up to the first CRLF is the
    method, a space, the target, a space and [HTTP/1.1], with no space inside
    the method or the target; the version returned is [1.1] and the count is
    the line with its CRLF. *)
Theorem parseRequestLine_accepted (b : list ascii) rl n err :
  parseRequestLine b = (Some rl, n, err) →
  err = None
  ∧ HttpVersion rl = lit "1.1"
  ∧ (" "%char ∉ Method rl) ∧ (" "%char ∉ RequestTarget rl)
  ∧ ∃ idx, bytes_Index b rn = Some idx ∧ n = idx + length rn
      ∧ take idx b = Method rl ++ lit " " ++ RequestTarget rl ++ lit " HTTP/1.1".
Proof.
  unfold parseRequestLine, SEPARATOR. fold rn.
  destruct (bytes_Index b rn) as [idx|] eqn:Hi; [|done].
  unfold bytes_Split. set (line := take idx b).
  pose proof (split_byte_join " " [] line) as Hjoin.
  pose proof (split_byte_pieces " " [] line (not_elem_of_nil _)) as Hpieces.
  change (lit " ") with [" "%char].
  destruct (split_from [" "%char] 0 [] line) as [|p0 [|p1 [|p2 [|]]]]; try done.
  simpl negb. cbn [nth].
  pose proof (split_byte_join "/" [] p2) as Hjoin2.
  change (lit "/") with ["/"%char].
  destruct (split_from ["/"%char] 0 [] p2) as [|h0 [|h1 [|]]]; try done.
  simpl negb. cbn [nth orb].
  case_bool_decide as Hh0; [|done]. case_bool_decide as Hh1; [|done].
  simpl. intros [= <- <-]. simpl.
  apply Forall_cons in Hpieces as [Hp0 Hpieces]. apply Forall_cons in Hpieces as [Hp1 _].
  repeat split; try done. exists idx. repeat split; try done.
  simpl in Hjoin, Hjoin2. subst h0 h1. rewrite <- Hjoin2 in Hjoin.
  unfold line in Hjoin. by rewrite <- Hjoin.
Qed.

(** X11: [parseRequestLine] accepts every line of that form, whatever the
    method and the target (empty ones included) as long as they hold no
    space, and whatever follows the CRLF. *)
Theorem parseRequestLine_accepts m t (rest : list ascii) :
  " "%char ∉ m → " "%char ∉ t →
  bytes_Index (m ++ lit " " ++ t ++ lit " HTTP/1.1") rn = None →
  parseRequestLine ((m ++ lit " " ++ t ++ lit " HTTP/1.1") ++ rn ++ rest)
  = (Some {| HttpVersion := lit "1.1"; RequestTarget := t; Method := m |},
     length (m ++ lit " " ++ t ++ lit " HTTP/1.1") + length rn, None).
Proof.
  intros Hm Ht Hline. unfold parseRequestLine, SEPARATOR. fold rn.
  rewrite Index_line, take_app_length by done. unfold bytes_Split.
  change (lit " ") with [" "%char]. simpl app.
  rewrite split_byte_app by done. rewrite split_byte_app by done.
  rewrite split_byte_no_sep by (apply (bool_decide_unpack _); by vm_compute).
  reflexivity.
Qed.

End RequestLineMore.

Lemma parseRequestLine_accepts_witness :
  parseRequestLine
    ((lit "OPTIONS" ++ lit " " ++ lit "*" ++ lit " HTTP/1.1") ++ rn ++ lit "Host: b\r\n")
  = (Some {| HttpVersion := lit "1.1"; RequestTarget := lit "*"; Method := lit "OPTIONS" |},
     length (lit "OPTIONS" ++ lit " " ++ lit "*" ++ lit " HTTP/1.1") + length rn, None).
Proof.
  apply parseRequestLine_accepts.
  - apply (bool_decide_unpack _). by vm_compute.
  - apply (bool_decide_unpack _). by vm_compute.
  - reflexivity.
Defined.

Lemma parseRequestLine_accepted_witness :
  (None : option error) = None
  ∧ lit "1.1" = lit "1.1"
  ∧ (" "%char ∉ lit "GET") ∧ (" "%char ∉ lit "/x")
  ∧ ∃ idx, bytes_Index (lit "GET /x HTTP/1.1\r\nHost: b\r\n") rn = Some idx
      ∧ 17 = idx + length rn
      ∧ take idx (lit "GET /x HTTP/1.1\r\nHost: b\r\n")
        = lit "GET" ++ lit " " ++ lit "/x" ++ lit " HTTP/1.1".
Proof.
  apply (parseRequestLine_accepted (lit "GET /x HTTP/1.1\r\nHost: b\r\n")
           {| HttpVersion := lit "1.1"; RequestTarget := lit "/x"; Method := lit "GET" |}
           17 None).
  reflexivity.
Defined.

(** ** More on [Request.parse] *)

Section ParseMore.

Context `{UnicodeTables}.

Implicit Types r : Request.
Implicit Types data b extra : list ascii.

Lemma parse_turn_count r data read :
  read ≤ length data →
  match parse_turn r data read with
  | Again _ read' => read' ≤ length data
  | Leave (Returned _ n err) => n ≤ length data ∧ (is_Some err → n = 0)
  | Leave (Panicked _) => True
  end.
Proof.
  intros Hread. unfold parse_turn.
  assert (length (drop read data) = length data - read) as Hcur by apply length_drop.
  destruct (state r).
  - destruct (parseRequestLine _) as [[rl n] err] eqn:Hline.
    apply parseRequestLine_shape in Hline as (Hn & _ & _).
    destruct err; [split; [lia|done]|]. destruct (n =? 0); [split; [done|by intros [? ?]]|].
    destruct rl; [lia|done].
  - destruct (Headers_Parse _ _) as [h [[n d] err]] eqn:Hparse.
    apply Headers_Parse_lines in Hparse as [Hn _].
    destruct err; [split; [lia|done]|]. destruct (n =? 0); [split; [done|by intros [? ?]]|].
    lia.
  - split; [done|by intros [? ?]].
  - destruct (_ =? 0)%Z; [exact Hread|].
    destruct (_ <? 0)%Z eqn:Hlt; [done|]. apply Z.ltb_ge in Hlt. lia.
Qed.

Lemma parse_loop_count fuel r data read r' n err :
  read ≤ length data →
  parse_loop fuel r data read = Some (Returned r' n err) →
  n ≤ length data ∧ (is_Some err → n = 0).
Proof.
  revert r read. induction fuel as [|fuel IH]; intros r read Hread; [done|].
  rewrite parse_loop_S. pose proof (parse_turn_count r data read Hread) as Hturn.
  destruct (parse_turn r data read) as [r1 read1|[r1 n1 err1|r1]]; [by apply IH| |done].
  by intros [= <- <- <-].
Qed.

(** X12: [Request.parse] never claims more bytes than the buffer it was
    given holds, and a call that returns an error claims none, even when the
    turns before the failing one have taken the request line or field lines
    in. *)
Theorem parse_count fuel r data r' n err :
  parse fuel r data = Some (Returned r' n err) →
  n ≤ length data ∧ (is_Some err → n = 0).
Proof. apply parse_loop_count. lia. Qed.

Lemma parse_loop_Body fuel r0 data :
  let L := getInt (headers r0) (lit "content-length") 0 in
  ∀ r read r' n err,
  (state r = StateBody ∧ (L ≠ 0%Z ∨ read = 0)
   ∨ state r = StateDone
     ∧ ((L = 0%Z ∧ read = 0) ∨ Z.of_nat (length (body r)) = L)) →
  headers r = headers r0 →
  Request_RequestLine r = Request_RequestLine r0 →
  body r = body r0 ++ take read data →
  read ≤ length data →
  parse_loop fuel r data read = Some (Returned r' n err) →
  err = None ∧ state r' = StateDone ∧ headers r' = headers r0
  ∧ Request_RequestLine r' = Request_RequestLine r0
  ∧ body r' = body r0 ++ take n data ∧ n ≤ length data
  ∧ ((L = 0%Z ∧ n = 0) ∨ Z.of_nat (length (body r')) = L).
Proof.
  intros L. induction fuel as [|fuel IH]; intros r read r' n err Hst Hh Hrl Hbody Hread;
    [done|].
  rewrite parse_loop_S. unfold parse_turn.
  destruct Hst as [[Hst Hfirst]|[Hst Hfin]]; rewrite Hst.
  - rewrite Hh. fold L. destruct (Z.eqb_spec L 0) as [HL|HL].
    + apply IH; try done. right. split; [done|]. left. split; [done|].
      by destruct Hfirst.
    + destruct (Z.ltb_spec (wrapInt (L - Z.of_nat (length (body r)))
                              `min` Z.of_nat (length (drop read data))) 0) as [|Hpos];
        [done|].
      set (t := Z.to_nat (wrapInt (L - Z.of_nat (length (body r)))
                            `min` Z.of_nat (length (drop read data)))) in *.
      assert (t ≤ length (drop read data)) as Ht by lia.
      rewrite length_drop in Ht.
      assert (body r ++ take t (drop read data) = body r0 ++ take (read + t) data) as Hb.
      { by rewrite Hbody, <- app_assoc, take_take_drop. }
      destruct (Z.eqb_spec (Z.of_nat (length (body (with_body r
                    (body r ++ take t (drop read data)))))) L) as [Heq|Hne].
      * apply IH; try done; [|lia]. right. split; [done|]. by right.
      * apply IH; try done; [|lia]. left. split; [done|]. by left.
  - intros [= <- <- <-]. by rewrite <- Hh in *.
Qed.

(** X13: a call of [Request.parse] on a request in the Body state that
    returns has finished the request: no error, state Done, the request line
    and the table untouched, the body grown by exactly the bytes the call
    counts, taken from the front of the buffer, and then as long as the
    Content-Length says (or nothing taken, for a Content-Length of 0). *)
Theorem parse_Body_returns fuel r data r' n err :
  state r = StateBody →
  parse fuel r data = Some (Returned r' n err) →
  err = None ∧ state r' = StateDone ∧ headers r' = headers r
  ∧ Request_RequestLine r' = Request_RequestLine r
  ∧ body r' = body r ++ take n data ∧ n ≤ length data
  ∧ ((getInt (headers r) (lit "content-length") 0 = 0%Z ∧ n = 0)
     ∨ Z.of_nat (length (body r')) = getInt (headers r) (lit "content-length") 0).
Proof.
  intros Hst. apply (parse_loop_Body fuel r data); try done; try lia.
  - left. split; [done|]. by right.
  - by rewrite take_0, app_nil_r.
Qed.

Lemma body_within_turn r data read :
  body_within r →
  match parse_turn r data read with
  | Again r' _ | Leave (Returned r' _ _) => body_within r'
  | Leave (Panicked r') =>
      state r' = StateBody ∧ body r' = []
      ∧ (getInt (headers r') (lit "content-length") 0 < 0)%Z
  end.
Proof.
  unfold body_within, parse_turn. destruct (state r) eqn:Hst; intros Hin.
  - destruct (parseRequestLine _) as [[rl n] err] eqn:Hline.
    apply parseRequestLine_shape in Hline as (_ & _ & Hnil).
    destruct err; [by rewrite Hst|]. destruct (Nat.eqb_spec n 0); [by rewrite Hst|].
    destruct rl; [done|]. by destruct Hnil as [Hnil _]; specialize (Hnil eq_refl).
  - destruct (Headers_Parse _ _) as [h [[n d] err]].
    destruct err; [by simpl; rewrite Hst|]. destruct (n =? 0); [by simpl; rewrite Hst|].
    destruct d; simpl; rewrite ?Hst; [|done]. rewrite Hin. simpl. lia.
  - by rewrite Hst.
  - pose proof (getInt_inInt (headers r) (lit "content-length")) as HL.
    set (L := getInt (headers r) (lit "content-length") 0) in *.
    destruct (Z.eqb_spec L 0) as [HL0|HL0]; [done|].
    assert (inInt (L - Z.of_nat (length (body r))) = true ∨ (L < 0)%Z) as [Hsub|Hneg].
    { destruct (Z.ltb_spec L 0); [by right|left].
      unfold inInt, minInt, maxInt in *. apply andb_true_iff in HL as [? ?].
      apply andb_true_iff. lia. }
    + rewrite wrapInt_inInt by done.
      destruct (Z.ltb_spec ((L - Z.of_nat (length (body r)))
                              `min` Z.of_nat (length (drop read data))) 0) as [Hlt|Hpos].
      * rewrite Hst. assert (L < 0)%Z as Hneg by lia. split; [done|]. split; [|done].
        apply length_zero_iff_nil. lia.
      * destruct (_ =? L)%Z; cbn [state body headers with_body with_state];
          rewrite ?Hst; cbn [headers with_body with_state]; fold L;
          rewrite length_app, length_take; lia.
    + assert (body r = []) as Hnil by (apply length_zero_iff_nil; lia).
      rewrite Hnil. simpl length. rewrite Z.sub_0_r, wrapInt_inInt by done.
      destruct (Z.ltb_spec (L `min` Z.of_nat (length (drop read data))) 0); [|lia].
      by rewrite Hst.
Qed.

Lemma body_within_loop fuel r data read o :
  body_within r →
  parse_loop fuel r data read = Some o →
  match o with
  | Returned r' _ _ => body_within r'
  | Panicked r' =>
      state r' = StateBody ∧ body r' = []
      ∧ (getInt (headers r') (lit "content-length") 0 < 0)%Z
  end.
Proof.
  revert r read. induction fuel as [|fuel IH]; intros r read Hin; [done|].
  rewrite parse_loop_S. pose proof (body_within_turn r data read Hin) as Hturn.
  destruct (parse_turn r data read) as [r1 read1|o1]; [by apply IH|].
  by intros [= <-].
Qed.

Lemma body_within_calls r tr r' : body_within r → calls r tr r' → body_within r'.
Proof.
  intros Hin Hcalls. induction Hcalls as [r|r fuel data r1 n err tr r2 Hparse _ IH]; [done|].
  apply IH. by apply (body_within_loop _ _ _ _ _ Hin Hparse).
Qed.

(** X14: of the two faults [Request.parse] can raise by its own arithmetic,
    the dereference [*rl] of a nil pointer and the slice
    [currentData[:toRead]] with a negative [toRead], a request that a
    sequence of calls has made from a new one meets only the second, and only
    in the Body state with no body byte read yet and a Content-Length below
    0: [parseRequestLine] never returns nil with a count and no error, and
    the body never grows past the Content-Length.  The bounds of the other
    slices ([data[read:]] and those of the callees) are not what this
    theorem is about. *)
Theorem parse_panics_only_negative tr r fuel data r' :
  calls newRequest tr r →
  parse fuel r data = Some (Panicked r') →
  state r' = StateBody ∧ body r' = []
  ∧ (getInt (headers r') (lit "content-length") 0 < 0)%Z.
Proof.
  intros Hcalls Hparse.
  apply (body_within_loop _ _ _ _ _ (body_within_calls newRequest tr r eq_refl Hcalls) Hparse).
Qed.

End ParseMore.

Lemma parse_count_witness :
  0 ≤ length (lit "GET / HTTP/1.1\r\nN@me: v\r\n")
  ∧ (is_Some (Some malformed_header_name) → 0 = 0).
Proof.
  apply (@parse_count asciiTables 2 newRequest (lit "GET / HTTP/1.1\r\nN@me: v\r\n")
           {| Request_RequestLine := mkRequestLine (lit "1.1") (lit "/") (lit "GET");
              state := StateHeaders; headers := NewHeaders; body := [] |}
           0 (Some malformed_header_name)).
  vm_compute. reflexivity.
Defined.

Lemma parse_Body_returns_witness :
  let r := {| Request_RequestLine := mkRequestLine (lit "1.1") (lit "/a") (lit "POST");
              state := StateBody;
              headers := {[ lit "content-length" := lit "5" ]};
              body := lit "he" |} in
  let r' := {| Request_RequestLine := mkRequestLine (lit "1.1") (lit "/a") (lit "POST");
               state := StateDone;
               headers := {[ lit "content-length" := lit "5" ]};
               body := lit "hello" |} in
  (None : option error) = None ∧ state r' = StateDone ∧ headers r' = headers r
  ∧ Request_RequestLine r' = Request_RequestLine r
  ∧ body r' = body r ++ take 3 (lit "llo!") ∧ 3 ≤ length (lit "llo!")
  ∧ ((@getInt asciiTables (headers r) (lit "content-length") 0 = 0%Z ∧ 3 = 0)
     ∨ Z.of_nat (length (body r'))
       = @getInt asciiTables (headers r) (lit "content-length") 0).
Proof.
  intros r r'. apply (@parse_Body_returns asciiTables 2 r (lit "llo!") r' 3 None).
  - reflexivity.
  - vm_compute. reflexivity.
Defined.

Lemma parse_panics_only_negative_witness :
  let r' := {| Request_RequestLine := mkRequestLine (lit "1.1") (lit "/a") (lit "POST");
               state := StateBody;
               headers := {[ lit "content-length" := lit "-1" ]};
               body := [] |} in
  state r' = StateBody ∧ body r' = []
  ∧ (@getInt asciiTables (headers r') (lit "content-length") 0 < 0)%Z.
Proof.
  intros r'.
  apply (@parse_panics_only_negative asciiTables [] newRequest 3
           (lit "POST /a HTTP/1.1\r\nContent-Length: -1\r\n\r\n") r').
  - apply calls_nil.
  - vm_compute. reflexivity.
Defined.

(** ** Requests with a body *)

Section WithBody.

Context `{UnicodeTables}.

Implicit Types r : Request.
Implicit Types data b extra l : list ascii.

(** In the Headers state, on a buffer that holds the rest of the header
    block and, after it, at least the whole body: the call ends in Done with
    the body read. *)
Lemma parse_Headers_with_body r data h' n b extra :
  state r = StateHeaders → body r = [] →
  Headers_Parse (headers r) data = (h', (n, true, None)) →
  drop n data = b ++ extra →
  getInt h' (lit "content-length") 0 = Z.of_nat (length b) →
  parse 3 r data
  = Some (Returned {| Request_RequestLine := Request_RequestLine r; state := StateDone;
                      headers := h'; body := b |}
            (n + length b) None).
Proof.
  intros Hst Hbody Hparse Hdrop Hlen.
  pose proof (Headers_Parse_done_pos _ _ _ _ Hparse) as Hn.
  pose proof (getInt_inInt h' (lit "content-length")) as Hin.
  unfold parse. rewrite parse_loop_S. unfold parse_turn at 1.
  rewrite Hst, drop_0, Hparse. destruct n as [|n]; [done|]. cbn [Nat.eqb Nat.add].
  rewrite parse_loop_S. unfold parse_turn at 1.
  cbn [state headers body with_state with_headers]. rewrite Hbody, Hdrop, Hlen in *.
  destruct (Z.eqb_spec (Z.of_nat (length b)) 0) as [Hz|Hz].
  - assert (b = []) as -> by (apply length_zero_iff_nil; lia).
    rewrite parse_loop_S. unfold parse_turn. cbn [state with_state with_headers].
    rewrite Nat.add_0_r. do 2 f_equal. destruct r; simpl in *. by subst.
  - cbn [length]. rewrite Z.sub_0_r, wrapInt_inInt by done.
    rewrite Z.min_l by (rewrite length_app; lia).
    destruct (Z.ltb_spec (Z.of_nat (length b)) 0); [lia|].
    rewrite Nat2Z.id, take_app_length. cbn [app body with_body].
    rewrite Z.eqb_refl, parse_loop_S. unfold parse_turn.
    cbn [state with_state with_headers with_body]. done.
Qed.

Lemma parse_whole l line (ls : list (list ascii)) b extra :
  parseRequestLine (l ++ rn) = (Some line, length l + length rn, None) →
  Forall (λ l, well_formed l = true) ls →
  getInt (committed ls NewHeaders) (lit "content-length") 0 = Z.of_nat (length b) →
  parse 4 newRequest (l ++ rn ++ header_block ls ++ b ++ extra)
  = Some (Returned {| Request_RequestLine := line; state := StateDone;
                      headers := committed ls NewHeaders; body := b |}
            (length (l ++ rn ++ header_block ls ++ b)) None).
Proof.
  intros Hline Hwf Hlen.
  assert (bytes_Index l rn = None) as Hl.
  { unfold parseRequestLine, SEPARATOR in Hline. fold rn in Hline.
    destruct (bytes_Index (l ++ rn) rn) as [i|] eqn:Hi; [|done].
    assert (i = length l) as ->.
    { destruct (negb _); [done|]. destruct (_ || _); [done|].
      injection Hline as _ Hn. lia. }
    apply Index_take_None in Hi; [|done]. by rewrite take_app_length in Hi. }
  rewrite (parse_Init_line 3 newRequest _ line (length l + length rn)); [|done| |simpl; lia].
  - rewrite (app_assoc l rn), <- (length_app l rn), drop_app_length.
    rewrite (parse_Headers_with_body _ _ (committed ls NewHeaders)
               (length (header_block ls)) b extra); try done.
    + cbn [fmap option_fmap option_map shift_outcome].
      f_equal. f_equal. rewrite !length_app. lia.
    + by apply Headers_Parse_stops_at_blank_line_aux.
    + by rewrite drop_app_length.
  - by rewrite parseRequestLine_first_line.
Qed.

(** X15: one call of [Request.parse] on a buffer that holds a whole request
    (request line, field lines the parser accepts, blank line, and a body as
    long as the Content-Length says, 0 when there is none) takes the request
    in, body and all, ends in Done, and leaves what follows the body in the
    buffer uncounted. *)
Theorem parse_whole_request l line (ls : list (list ascii)) b extra :
  parseRequestLine (l ++ rn) = (Some line, length l + length rn, None) →
  Forall (λ l, well_formed l = true) ls →
  getInt (committed ls NewHeaders) (lit "content-length") 0 = Z.of_nat (length b) →
  parse 4 newRequest (l ++ rn ++ header_block ls ++ b ++ extra)
  = Some (Returned {| Request_RequestLine := line; state := StateDone;
                      headers := committed ls NewHeaders; body := b |}
            (length (l ++ rn ++ header_block ls ++ b)) None).
Proof. apply parse_whole. Qed.

(** X16: [RequestFromReader] completes a request with a body when the
    source delivers it whole in its first read, which the buffer allows for
    requests of at most 1024 bytes. *)
Theorem RequestFromReader_one_read l line (ls : list (list ascii)) b (fuel : nat) :
  parseRequestLine (l ++ rn) = (Some line, length l + length rn, None) →
  Forall (λ l, well_formed l = true) ls →
  getInt (committed ls NewHeaders) (lit "content-length") 0 = Z.of_nat (length b) →
  length (l ++ rn ++ header_block ls ++ b) ≤ bufSize →
  6 ≤ fuel →
  RequestFromReader fuel [l ++ rn ++ header_block ls ++ b]
  = Some (Completed {| Request_RequestLine := line; state := StateDone;
                       headers := committed ls NewHeaders; body := b |}).
Proof.
  intros Hline Hwf Hlen Hfit Hfuel. unfold RequestFromReader.
  destruct fuel as [|[|fuel]]; [lia..|].
  pose proof (parse_whole l line ls b [] Hline Hwf Hlen) as Hparse.
  rewrite app_nil_r in Hparse.
  set (msg := l ++ rn ++ header_block ls ++ b) in *.
  assert (Read [msg] (bufSize - length (@nil ascii)) = (msg, None, [])) as Hread.
  { simpl. by rewrite take_ge, drop_ge. }
  rewrite (RequestFromReader_loop_turn (S fuel) 4 newRequest [] [msg] [] msg _ _
             eq_refl Hread Hparse) by lia.
  by rewrite RequestFromReader_loop_S.
Qed.

End WithBody.

Lemma parse_whole_request_witness :
  @parse asciiTables 4 newRequest
    (lit "POST /a HTTP/1.1" ++ rn ++ header_block [lit "Content-Length: 5"]
     ++ lit "hello" ++ lit "GET /next HTTP/1.1\r\n")
  = Some (Returned
            {| Request_RequestLine := mkRequestLine (lit "1.1") (lit "/a") (lit "POST");
               state := StateDone;
               headers := @committed asciiTables [lit "Content-Length: 5"] NewHeaders;
               body := lit "hello" |}
            (length (lit "POST /a HTTP/1.1" ++ rn ++ header_block [lit "Content-Length: 5"]
                     ++ lit "hello")) None).
Proof.
  apply (@parse_whole_request asciiTables (lit "POST /a HTTP/1.1")).
  - reflexivity.
  - repeat constructor.
  - vm_compute. reflexivity.
Defined.

Lemma RequestFromReader_one_read_witness :
  @RequestFromReader asciiTables _ _ 6
    [lit "POST /a HTTP/1.1" ++ rn ++ header_block [lit "Content-Length: 5"] ++ lit "hello"]
  = Some (Completed
            {| Request_RequestLine := mkRequestLine (lit "1.1") (lit "/a") (lit "POST");
               state := StateDone;
               headers := @committed asciiTables [lit "Content-Length: 5"] NewHeaders;
               body := lit "hello" |}).
Proof.
  apply (@RequestFromReader_one_read asciiTables (lit "POST /a HTTP/1.1")).
  - reflexivity.
  - repeat constructor.
  - vm_compute. reflexivity.
  - unfold bufSize. simpl. lia.
  - lia.
Defined.

(** ** [RequestFromReader]: the requests it completes *)

Section Completes.

Context `{UnicodeTables}.

Implicit Types r : Request.
Implicit Types data buf pending l p q w c tail b : list ascii.
Implicit Types ls front : list (list ascii).

(** A stretch with a CRLF in it. *)
Lemma Index_rn_Some p q : bytes_Index (p ++ rn ++ q) rn ≠ None.
Proof.
  destruct (bytes_Index p rn) as [i|] eqn:Hi.
  - by rewrite (Index_app_Some _ _ _ _ Hi).
  - by rewrite Index_line.
Qed.

(** A buffer with no CRLF in it holds nothing of the lines that have
    ended. *)
Lemma line_end_pending pending w q :
  pending = w ++ q → line_end w → bytes_Index pending rn = None →
  length pending ≤ length q.
Proof.
  intros -> [->|[u ->]] Hp; [done|].
  rewrite <- app_assoc in Hp. by apply Index_rn_Some in Hp.
Qed.

(** Taking whole lines from the front of the bytes leaves bytes that split
    the same way: lines that have ended, and no more after them than
    before. *)
Lemma line_end_drop c (rest : list ascii) w q :
  c ++ rest = w ++ q → line_end c → line_end w →
  ∃ w' q', rest = w' ++ q' ∧ line_end w' ∧ length q' ≤ length q.
Proof.
  intros Heq Hc Hw.
  destruct (decide (length w ≤ length c)) as [Hle|Hgt].
  { exists [], rest. split; [done|]. split; [by left|].
    apply (f_equal length) in Heq. rewrite !length_app in Heq. lia. }
  symmetry in Heq. destruct (app_prefix_split w q c rest Heq) as (s & -> & Hs); [lia|].
  exists s, q. split; [done|]. split; [|done].
  rewrite length_app in Hgt.
  destruct Hw as [Hw|[u Hu]].
  { apply app_eq_nil in Hw as [_ ->]. by left. }
  destruct Hc as [->|[v ->]]; [right; by exists u|].
  right. induction s as [|x s _] using rev_ind; [simpl in Hgt; lia|].
  induction s as [|y s _] using rev_ind.
  - exfalso. simpl in Hu.
    change (v ++ rn) with (v ++ [CR] ++ [LF]) in Hu.
    rewrite (app_assoc v), <- (app_assoc _ [LF]) in Hu.
    by apply app_inj_2 in Hu as [_ [=]].
  - exists s. rewrite <- (app_assoc s), (app_assoc (v ++ rn)) in Hu.
    apply app_inj_2 in Hu as [_ [= -> ->]]; [|done]. by rewrite <- app_assoc.
Qed.

(** A read from a source whose last chunk is still to come takes from the
    chunks before it. *)
Lemma chunks_Read_front c front (last : list ascii) k :
  0 < k →
  ∃ chunk front', Read ((c :: front) ++ [last]) k = (chunk, None, front' ++ [last])
    ∧ chunk ++ concat front' = concat (c :: front)
    ∧ supply front' < supply (c :: front).
Proof.
  intros Hk. destruct (decide (drop k c = [])) as [Hd|Hd].
  - exists (take k c), front. simpl. rewrite bool_decide_eq_true_2 by done.
    split; [done|]. split.
    + rewrite <- (take_drop k c) at 2. by rewrite Hd, app_nil_r.
    + unfold supply. simpl. rewrite length_app. lia.
  - exists (take k c), (drop k c :: front). simpl. rewrite bool_decide_eq_false_2 by done.
    split; [done|]. split.
    + by rewrite app_assoc, take_drop.
    + unfold supply. simpl. rewrite !length_app, length_drop.
      destruct c; [by rewrite drop_nil in Hd|]. simpl. lia.
Qed.

(** The last chunk is read whole when the buffer has room for it. *)
Lemma chunks_Read_last (last : list ascii) k :
  length last ≤ k → Read [last] k = (last, None, []).
Proof. intros Hk. simpl. by rewrite take_ge, drop_ge. Qed.

Lemma request_line_no_CRLF l line :
  parseRequestLine (l ++ rn) = (Some line, length l + length rn, None) →
  bytes_Index l rn = None.
Proof.
  intros Hline. unfold parseRequestLine, SEPARATOR in Hline. fold rn in Hline.
  destruct (bytes_Index (l ++ rn) rn) as [i|] eqn:Hi; [|done].
  assert (i = length l) as ->.
  { destruct (negb _); [done|]. destruct (_ || _); [done|].
    injection Hline as _ Hn. lia. }
  apply Index_take_None in Hi; [|done]. by rewrite take_app_length in Hi.
Qed.

(** From the Headers state on, when the last read holds the end of the
    header section and the body. *)
Lemma RequestFromReader_loop_Headers_body tail b m :
  ∀ front r pending ls (fuel : nat) w q,
  supply front = m →
  state r = StateHeaders → body r = [] →
  pending ++ concat front ++ tail = header_block ls →
  tail ≠ [] →
  Forall (λ l, well_formed l = true) ls → Forall fits ls →
  bytes_Index pending rn = None →
  getInt (committed ls (headers r)) (lit "content-length") 0 = Z.of_nat (length b) →
  pending ++ concat front = w ++ q → line_end w →
  length q + length (tail ++ b) ≤ bufSize →
  m + 5 ≤ fuel →
  RequestFromReader_loop fuel r pending (front ++ [tail ++ b])
  = Some (Completed {| Request_RequestLine := Request_RequestLine r; state := StateDone;
                       headers := committed ls (headers r); body := b |}).
Proof.
  induction m as [m IH] using lt_wf_ind.
  intros front r pending ls fuel w q <- Hst Hbody Heq Htail Hwf Hfit Hp Hlen Hroom Hw Hq Hfuel.
  destruct fuel as [|fuel]; [lia|].
  assert (done r = false) as Hdone by (unfold done; by rewrite Hst).
  destruct front as [|c front].
  - simpl in Heq, Hroom. rewrite app_nil_r in Hroom.
    pose proof (line_end_pending pending w q Hroom Hw Hp) as Hpq.
    assert (Read [tail ++ b] (bufSize - length pending) = (tail ++ b, None, [])) as Hread
      by (apply chunks_Read_last; lia).
    assert (parse 3 r (pending ++ tail ++ b)
            = Some (Returned {| Request_RequestLine := Request_RequestLine r;
                                state := StateDone;
                                headers := committed ls (headers r); body := b |}
                      (length (header_block ls) + length b) None)) as Hparse.
    { apply (parse_Headers_with_body r _ _ _ b []); try done.
      - rewrite app_assoc, Heq. by apply Headers_Parse_stops_at_blank_line_aux.
      - by rewrite app_assoc, Heq, drop_app_length, app_nil_r. }
    simpl app at 1.
    rewrite (RequestFromReader_loop_turn _ 3 _ _ _ _ _ _ _ Hdone Hread Hparse) by lia.
    destruct fuel as [|fuel]; [lia|]. by rewrite RequestFromReader_loop_S.
  - destruct (header_block_first ls Hwf Hfit) as (l & t & Hblock & Hl & Hlfit).
    assert (length pending < length l + length rn) as Hshort.
    { apply (no_line_short l pending (concat (c :: front) ++ tail) t); [done| |done].
      by rewrite Heq. }
    unfold fits in Hlfit.
    destruct (chunks_Read_front c front (tail ++ b) (bufSize - length pending))
      as (chunk & front' & Hread & Hcat & Hless); [lia|].
    assert ((pending ++ chunk) ++ concat front' ++ tail = header_block ls) as Hbuf.
    { by rewrite <- Heq, <- Hcat, <- !app_assoc. }
    destruct (Headers_Parse_prefix ls Hwf (headers r) (pending ++ chunk) _ Hbuf)
      as (k & Hparse & Hrest).
    { intros [_ ->]%app_eq_nil. done. }
    pose proof (Headers_Parse_rest _ _ _ _ Hparse) as Hnone.
    pose proof (Headers_Parse_lines _ _ _ _ _ _ Hparse) as [Hn Hpre].
    pose proof (parse_Headers_more r _ _ _ Hst Hparse) as Hparse2.
    rewrite (RequestFromReader_loop_turn _ 2 _ _ _ _ _ _ _ Hdone Hread Hparse2) by lia.
    remember (length (field_lines (take k ls))) as n eqn:Hndef.
    destruct (line_end_drop (take n (pending ++ chunk))
                (drop n (pending ++ chunk) ++ concat front') w q)
      as (w' & q' & Hroom' & Hw' & Hq'); [| |done|].
    { by rewrite app_assoc, take_drop, <- app_assoc, Hcat. }
    { destruct (decide (n = 0)) as [->|Hn0]; [by left|right; apply Hpre; lia]. }
    rewrite (IH (supply front') Hless front' _ _ (drop k ls) fuel w' q'); try done; try lia.
    + cbn [headers with_headers Request_RequestLine]. by rewrite <- committed_app, take_drop.
    + by apply Forall_drop.
    + by apply Forall_drop.
    + cbn [headers with_headers]. by rewrite <- committed_app, take_drop.
Qed.

(** From the Init state on. *)
Lemma RequestFromReader_loop_Init_body tail b m :
  ∀ front pending l line ls (fuel : nat) w q,
  supply front = m →
  pending ++ concat front ++ tail = l ++ rn ++ header_block ls →
  tail ≠ [] →
  fits l →
  parseRequestLine (l ++ rn) = (Some line, length l + length rn, None) →
  Forall (λ l, well_formed l = true) ls → Forall fits ls →
  bytes_Index pending rn = None →
  getInt (committed ls NewHeaders) (lit "content-length") 0 = Z.of_nat (length b) →
  pending ++ concat front = w ++ q → line_end w →
  length q + length (tail ++ b) ≤ bufSize →
  m + 6 ≤ fuel →
  RequestFromReader_loop fuel newRequest pending (front ++ [tail ++ b])
  = Some (Completed {| Request_RequestLine := line; state := StateDone;
                       headers := committed ls NewHeaders; body := b |}).
Proof.
  induction m as [m IH] using lt_wf_ind.
  intros front pending l line ls fuel w q <- Heq Htail Hlfit Hline Hwf Hfit Hp Hlen
    Hroom Hw Hq Hfuel.
  pose proof (request_line_no_CRLF l line Hline) as Hl.
  assert (done newRequest = false) as Hdone by done.
  destruct fuel as [|fuel]; [lia|].
  destruct front as [|c front].
  - simpl in Heq, Hroom. rewrite app_nil_r in Hroom.
    pose proof (line_end_pending pending w q Hroom Hw Hp) as Hpq.
    assert (Read [tail ++ b] (bufSize - length pending) = (tail ++ b, None, [])) as Hread
      by (apply chunks_Read_last; lia).
    pose proof (parse_whole l line ls b [] Hline Hwf Hlen) as Hparse.
    rewrite app_nil_r in Hparse.
    assert (pending ++ tail ++ b = l ++ rn ++ header_block ls ++ b) as Hall
      by (by rewrite app_assoc, Heq, <- !app_assoc).
    rewrite <- Hall in Hparse. simpl app at 1.
    rewrite (RequestFromReader_loop_turn _ 4 _ _ _ _ _ _ _ Hdone Hread Hparse) by lia.
    destruct fuel as [|fuel]; [lia|]. by rewrite RequestFromReader_loop_S.
  - assert (length pending < length l + length rn) as Hshort.
    { apply (no_line_short l pending (concat (c :: front) ++ tail) (header_block ls));
        [done| |done]. by rewrite Heq. }
    unfold fits in Hlfit.
    destruct (chunks_Read_front c front (tail ++ b) (bufSize - length pending))
      as (chunk & front' & Hread & Hcat & Hless); [lia|].
    assert ((pending ++ chunk) ++ concat front' ++ tail = l ++ rn ++ header_block ls)
      as Hbuf by (by rewrite <- Heq, <- Hcat, <- !app_assoc).
    assert ((pending ++ chunk) ++ concat front' = w ++ q) as Hroom1
      by (by rewrite <- app_assoc, Hcat).
    remember (pending ++ chunk) as buf eqn:Hbufdef.
    destruct (decide (length buf < length l + length rn)) as [Hwait|Hlong].
    + pose proof (Index_short_prefix _ _ _ _ Hl Hbuf Hwait) as Hnone.
      subst buf.
      rewrite (RequestFromReader_loop_turn _ 1 _ _ _ _ _ _ _ Hdone Hread
                 (parse_Init_wait newRequest _ eq_refl Hnone)) by lia.
      rewrite drop_0.
      apply (IH (supply front') Hless front' _ l line ls fuel w q); try done; lia.
    + rewrite (app_assoc l rn) in Hbuf.
      destruct (app_prefix_split buf _ (l ++ rn) _ Hbuf) as (buf' & Hbuf' & Hcat').
      { rewrite length_app. lia. }
      set (r1 := with_state (with_RequestLine newRequest line) StateHeaders).
      destruct (Headers_Parse_prefix ls Hwf (headers r1) buf' _ Hcat')
        as (k & Hparse & Hrest).
      { intros [_ ->]%app_eq_nil. done. }
      pose proof (Headers_Parse_rest _ _ _ _ Hparse) as Hnone.
      pose proof (Headers_Parse_lines _ _ _ _ _ _ Hparse) as [Hn Hpre].
      pose proof (parse_Headers_more r1 _ _ _ eq_refl Hparse) as Hparse2.
      remember (length (field_lines (take k ls))) as n eqn:Hndef.
      assert (parse 4 newRequest buf
              = Some (Returned (with_headers r1 (committed (take k ls) (headers r1)))
                        (length l + length rn + n) None)) as Hparse4.
      { rewrite (parse_Init_line 3 newRequest buf line (length l + length rn));
          [|done| |simpl; lia].
        - rewrite Hbuf', <- (length_app l rn), drop_app_length.
          fold r1. unfold parse in *.
          by rewrite (parse_loop_mono _ 3 _ _ _ _ Hparse2) by lia.
        - by rewrite Hbuf', <- app_assoc, parseRequestLine_first_line. }
      subst buf.
      rewrite (RequestFromReader_loop_turn _ 4 _ _ _ _ _ _ _ Hdone Hread Hparse4) by lia.
      rewrite Hbuf' in Hroom1 |- *.
      rewrite <- (length_app l rn), <- drop_drop, drop_app_length.
      destruct (line_end_drop ((l ++ rn) ++ take n buf') (drop n buf' ++ concat front') w q)
        as (w' & q' & Hroom' & Hw' & Hq'); [| |done|].
      { by rewrite <- Hroom1, <- !app_assoc, (app_assoc (take n buf')), take_drop. }
      { right. destruct (decide (n = 0)) as [->|Hn0].
        - exists l. by rewrite take_0, app_nil_r.
        - destruct Hpre as [pre ->]; [lia|]. exists (l ++ rn ++ pre).
          by rewrite <- !app_assoc. }
      rewrite (RequestFromReader_loop_Headers_body tail b (supply front') front' _ _
                 (drop k ls) fuel w' q'); try done; try lia.
      * cbn [headers with_headers with_state with_RequestLine Request_RequestLine r1 newRequest].
        by rewrite <- committed_app, take_drop.
      * by apply Forall_drop.
      * by apply Forall_drop.
      * cbn [headers with_headers with_state with_RequestLine r1 newRequest].
        by rewrite <- committed_app, take_drop.
Qed.

(** C5, as the code has it: the buffer of [RequestFromReader] is the 1024
    bytes it allocates.  For every request whose request line and field
    lines the parser accepts and fit the buffer, each with its CRLF, the
    loop terminates and returns the completed Request (the request line, the
    table with every field line committed, the body, in state Done): for
    every way the source cuts the request into reads when the request has no
    body, and, when it has one, whenever the source's last read holds the
    end of the header section and the whole body and the buffer has room
    for that read. *)
Theorem RequestFromReader_completes (l : list ascii) line (ls chunks : list (list ascii))
    (b : list ascii) (fuel : nat) :
  parseRequestLine (l ++ rn) = (Some line, length l + length rn, None) →
  Forall (λ l, well_formed l = true) ls →
  fits l → Forall fits ls →
  getInt (committed ls NewHeaders) (lit "content-length") 0 = Z.of_nat (length b) →
  concat chunks = l ++ rn ++ header_block ls ++ b →
  b = [] ∨ body_with_headers chunks b →
  supply chunks + 6 ≤ fuel →
  RequestFromReader fuel chunks
  = Some (Completed {| Request_RequestLine := line; state := StateDone;
                       headers := committed ls NewHeaders; body := b |}).
Proof.
  intros Hline Hwf Hlfit Hfit Hlen Hcat [->|Hbody] Hfuel; unfold RequestFromReader.
  - rewrite app_nil_r in Hcat. pose proof (request_line_no_CRLF l line Hline) as Hl.
    by rewrite (RequestFromReader_loop_Init (supply chunks) chunks newRequest [] l line ls).
  - destruct Hbody as (front & whole & p & tail & -> & Htail & Hfront & Hwhole & Hroom).
    assert (concat front ++ tail = l ++ rn ++ header_block ls) as Hhs.
    { apply (app_inv_tail b). rewrite <- !app_assoc, <- Hcat, concat_app. simpl.
      by rewrite app_nil_r. }
    apply (RequestFromReader_loop_Init_body tail b (supply front) front [] l line ls fuel
             whole p); try done.
    + rewrite !length_app in *. lia.
    + unfold supply in *. rewrite concat_app, !length_app in Hfuel. lia.
Qed.

End Completes.

(** A request with a body, read in uneven pieces (one read gives nothing,
    one cuts a CRLF in half); the last read holds the end of the blank line
    and the body. *)
Lemma RequestFromReader_completes_witness :
  @RequestFromReader asciiTables _ _ 100
    [lit "POST /a HT"; lit "TP/1.1\r"; []; lit "\nContent-Length: 5\r\nFoo: b";
     lit "ar\r\n\r"; lit "\nhello"]
  = Some (Completed
            {| Request_RequestLine := mkRequestLine (lit "1.1") (lit "/a") (lit "POST");
               state := StateDone;
               headers := @committed asciiTables
                            [lit "Content-Length: 5"; lit "Foo: bar"] NewHeaders;
               body := lit "hello" |}).
Proof.
  apply (@RequestFromReader_completes asciiTables (lit "POST /a HTTP/1.1")).
  - reflexivity.
  - repeat constructor.
  - unfold fits, bufSize. simpl. lia.
  - repeat constructor; unfold fits, bufSize; simpl; lia.
  - vm_compute. reflexivity.
  - reflexivity.
  - right.
    exists [lit "POST /a HT"; lit "TP/1.1\r"; []; lit "\nContent-Length: 5\r\nFoo: b";
            lit "ar\r\n\r"],
      (lit "POST /a HTTP/1.1\r\nContent-Length: 5\r\nFoo: bar\r\n"), (lit "\r"), (lit "\n").
    split; [reflexivity|]. split; [done|]. split; [reflexivity|]. split.
    + right. by exists (lit "POST /a HTTP/1.1\r\nContent-Length: 5\r\nFoo: bar").
    + unfold bufSize. simpl. lia.
  - unfold supply. simpl. lia.
Defined.

(** ** A source that ends before the request does *)

Section Truncated.

Context `{UnicodeTables}.

Implicit Types r : Request.
Implicit Types pending missing l : list ascii.
Implicit Types ls : list (list ascii).

Lemma chunks_Read_cons (reader : list (list ascii)) k :
  0 < k → reader ≠ [] →
  ∃ chunk reader', Read reader k = (chunk, None, reader')
    ∧ chunk ++ concat reader' = concat reader
    ∧ supply reader' < supply reader.
Proof.
  intros Hk Hne. destruct reader as [|c cs]; [done|].
  eexists _, _. split; [reflexivity|]. unfold supply.
  case_bool_decide as Hd; simpl.
  - rewrite <- (take_drop k c) at 2. rewrite Hd, app_nil_r. split; [done|].
    rewrite length_app. lia.
  - rewrite app_assoc, take_drop. split; [done|].
    rewrite !length_app, length_drop. destruct c; [by rewrite drop_nil in Hd|]. simpl. lia.
Qed.

Lemma RequestFromReader_loop_EOF fuel r pending :
  done r = false →
  RequestFromReader_loop (S fuel) r pending (@nil (list ascii))
  = Some (Failed (reader_error "EOF")).
Proof. intros Hdone. by rewrite RequestFromReader_loop_S, Hdone. Qed.

Lemma RequestFromReader_loop_Headers_cut m :
  ∀ (reader : list (list ascii)) r pending ls missing fuel,
  supply reader = m →
  state r = StateHeaders →
  pending ++ concat reader ++ missing = header_block ls →
  missing ≠ [] →
  Forall (λ l, well_formed l = true) ls → Forall fits ls →
  bytes_Index pending rn = None →
  m + 5 ≤ fuel →
  RequestFromReader_loop fuel r pending reader = Some (Failed (reader_error "EOF")).
Proof.
  induction m as [m IH] using lt_wf_ind.
  intros reader r pending ls missing fuel <- Hst Heq Hmiss Hwf Hfit Hp Hfuel.
  destruct fuel as [|fuel]; [lia|].
  assert (done r = false) as Hdone by (unfold done; by rewrite Hst).
  destruct (decide (reader = [])) as [->|Hreader]; [by apply RequestFromReader_loop_EOF|].
  destruct (header_block_first ls Hwf Hfit) as (l & t & Hblock & Hl & Hlfit).
  rewrite Hblock in Heq.
  pose proof (no_line_short _ _ _ _ Hl Heq Hp) as Hshort. unfold fits in Hlfit.
  destruct (chunks_Read_cons reader (bufSize - length pending))
    as (chunk & reader' & Hread & Hcat & Hless); [lia|done|].
  rewrite <- Hcat, <- Hblock, <- app_assoc, app_assoc in Heq.
  destruct (Headers_Parse_prefix ls Hwf (headers r) _ _ Heq) as (k & Hparse & Hrest).
  { intros [_ ?]%app_eq_nil. done. }
  pose proof (Headers_Parse_rest _ _ _ _ Hparse) as Hnone.
  rewrite (RequestFromReader_loop_turn _ 2 _ _ _ _ _ _ _ Hdone Hread
             (parse_Headers_more _ _ _ _ Hst Hparse)) by lia.
  apply (IH (supply reader') Hless reader' _ _ (drop k ls) missing); try done; try lia.
  - by apply Forall_drop.
  - by apply Forall_drop.
Qed.

Lemma RequestFromReader_loop_Init_cut m :
  ∀ (reader : list (list ascii)) r pending l line ls missing fuel,
  supply reader = m →
  state r = StateInit →
  pending ++ concat reader ++ missing = l ++ rn ++ header_block ls →
  missing ≠ [] →
  bytes_Index l rn = None → fits l →
  parseRequestLine (l ++ rn) = (Some line, length l + length rn, None) →
  Forall (λ l, well_formed l = true) ls → Forall fits ls →
  bytes_Index pending rn = None →
  m + 6 ≤ fuel →
  RequestFromReader_loop fuel r pending reader = Some (Failed (reader_error "EOF")).
Proof.
  induction m as [m IH] using lt_wf_ind.
  intros reader r pending l line ls missing fuel <- Hst Heq Hmiss Hl Hlfit Hline Hwf Hfit
    Hp Hfuel.
  destruct fuel as [|fuel]; [lia|].
  assert (done r = false) as Hdone by (unfold done; by rewrite Hst).
  destruct (decide (reader = [])) as [->|Hreader]; [by apply RequestFromReader_loop_EOF|].
  pose proof (no_line_short _ _ _ _ Hl Heq Hp) as Hshort. pose proof Hlfit as Hlfit'.
  unfold fits in Hlfit'.
  destruct (chunks_Read_cons reader (bufSize - length pending))
    as (chunk & reader' & Hread & Hcat & Hless); [lia|done|].
  rewrite <- Hcat, <- app_assoc, app_assoc in Heq.
  set (buf := pending ++ chunk) in *.
  destruct (decide (length buf < length l + length rn)) as [Hbuf|Hlong].
  - pose proof (Index_short_prefix _ _ _ _ Hl Heq Hbuf) as Hnone.
    rewrite (RequestFromReader_loop_turn _ 1 _ _ _ _ _ _ _ Hdone Hread
               (parse_Init_wait r buf Hst Hnone)) by lia.
    rewrite drop_0.
    apply (IH (supply reader') Hless reader' r buf l line ls missing); try done; lia.
  - rewrite (app_assoc l rn) in Heq.
    destruct (app_prefix_split buf _ (l ++ rn) _ Heq) as (buf' & Hbuf & Heq').
    { rewrite length_app. lia. }
    set (r1 := with_state (with_RequestLine r line) StateHeaders).
    destruct (Headers_Parse_prefix ls Hwf (headers r1) _ _ Heq') as (k & Hparse & Hrest).
    { intros [_ ?]%app_eq_nil. done. }
    pose proof (Headers_Parse_rest _ _ _ _ Hparse) as Hnone.
    assert (parse 4 r buf
            = Some (Returned (with_headers r1 (committed (take k ls) (headers r1)))
                      (length (l ++ rn) + length (field_lines (take k ls))) None))
      as Hparse4.
    { assert (parse 3 r1 buf'
              = Some (Returned (with_headers r1 (committed (take k ls) (headers r1)))
                        (length (field_lines (take k ls))) None)) as Hparse3.
      { apply (parse_loop_mono 2); [|lia]. by apply parse_Headers_more. }
      rewrite (parse_Init_line 3 r buf line (length l + length rn)); [|done| |simpl; lia].
      - rewrite Hbuf, <- (length_app l rn), drop_app_length. fold r1.
        by rewrite Hparse3.
      - by rewrite Hbuf, <- app_assoc, parseRequestLine_first_line. }
    rewrite (RequestFromReader_loop_turn _ 4 _ _ _ _ _ _ _ Hdone Hread Hparse4) by lia.
    fold buf. rewrite Hbuf, <- drop_drop, drop_app_length.
    apply (RequestFromReader_loop_Headers_cut (supply reader') reader' _ _ (drop k ls) missing);
      try done; try lia.
    + by apply Forall_drop.
    + by apply Forall_drop.
Qed.

(** X17: a source that ends before the header section does makes
    [RequestFromReader] fail: when the chunks hold the start of a request
    (lines the parser accepts and that fit the buffer) and not the whole of
    its header section, the loop reads them all, meets the end of the
    source, and returns its error [io.EOF] and no request. *)
Theorem RequestFromReader_truncated l line ls (chunks : list (list ascii)) missing
    (fuel : nat) :
  parseRequestLine (l ++ rn) = (Some line, length l + length rn, None) →
  Forall (λ l, well_formed l = true) ls →
  fits l → Forall fits ls →
  concat chunks ++ missing = l ++ rn ++ header_block ls →
  missing ≠ [] →
  supply chunks + 6 ≤ fuel →
  RequestFromReader fuel chunks = Some (Failed (reader_error "EOF")).
Proof.
  intros Hline Hwf Hlfit Hfit Hcat Hmiss Hfuel. unfold RequestFromReader.
  assert (bytes_Index l rn = None) as Hl.
  { unfold parseRequestLine, SEPARATOR in Hline. fold rn in Hline.
    destruct (bytes_Index (l ++ rn) rn) as [i|] eqn:Hi; [|done].
    assert (i = length l) as ->.
    { destruct (negb _); [done|]. destruct (_ || _); [done|].
      injection Hline as _ Hn. lia. }
    apply Index_take_None in Hi; [|done]. by rewrite take_app_length in Hi. }
  by apply (RequestFromReader_loop_Init_cut (supply chunks) chunks newRequest [] l line ls
              missing).
Qed.

End Truncated.

Lemma RequestFromReader_truncated_witness :
  @RequestFromReader asciiTables _ _ 100
    [lit "GET / HT"; lit "TP/1.1\r\nHost: localhost:42069\r\nFoo: bar\r"]
  = Some (Failed (reader_error "EOF")).
Proof.
  apply (@RequestFromReader_truncated asciiTables (lit "GET / HTTP/1.1")
           (mkRequestLine (lit "1.1") (lit "/") (lit "GET"))
           [lit "Host: localhost:42069"; lit "Foo: bar"] _ (lit "\n\r\n")).
  - reflexivity.
  - repeat constructor.
  - unfold fits, bufSize. simpl. lia.
  - repeat constructor; unfold fits, bufSize; simpl; lia.
  - reflexivity.
  - discriminate.
  - unfold supply. simpl. lia.
Defined.

(** ** The line reader *)

Section Lines.

Implicit Types str data s a cur : list ascii.
Implicit Types c : ascii.

Lemma getLinesChannel_loop_no_LF `{Reader R} fuel (f : R) str sent :
  LF ∉ str →
  getLinesChannel_loop fuel f str = Some sent →
  Forall (λ line, LF ∉ line) sent.
Proof.
  revert f str sent. induction fuel as [|fuel IH]; intros f str sent Hstr; [done|].
  simpl. destruct (Read f 8) as [[data [e|]] f'].
  - intros [= <-]. case_bool_decide; by repeat constructor.
  - unfold bytes_IndexByte. destruct (bytes_Index data [LF]) as [i|] eqn:Hi.
    + destruct (getLinesChannel_loop fuel f' []) as [sent'|] eqn:Hrec; [|done].
      intros [= <-]. apply Index_byte_Some in Hi as [_ Hi].
      constructor; [|by apply (IH f' []); [apply not_elem_of_nil|]].
      by intros [?|?]%elem_of_app.
    + apply IH. apply Index_byte_None in Hi. by intros [?|?]%elem_of_app.
Qed.

(** X18: no string [getLinesChannel] sends holds a line feed, whatever the
    source gives and however it cuts it. *)
Theorem getLinesChannel_no_LF `{Reader R} fuel (f : R) sent :
  getLinesChannel fuel f = Some sent → Forall (λ line, LF ∉ line) sent.
Proof. apply getLinesChannel_loop_no_LF, not_elem_of_nil. Qed.

Lemma split_byte_skip c cur a s :
  c ∉ a → split_from [c] 0 cur (a ++ s) = split_from [c] 0 (rev a ++ cur) s.
Proof.
  revert cur. induction a as [|b a IH]; intros cur Ha; [done|].
  simpl app. rewrite split_byte_cons, bool_decide_eq_false_2 by set_solver.
  rewrite IH by set_solver. simpl. by rewrite <- app_assoc.
Qed.

Lemma drop_empty_last_cons p (ps : list (list ascii)) :
  ps ≠ [] → drop_empty_last (p :: ps) = p :: drop_empty_last ps.
Proof. by destruct ps. Qed.

Lemma chunks_Read_8 (chunk : list ascii) (cs : list (list ascii)) :
  length chunk ≤ 8 → Read (chunk :: cs) 8 = (chunk, None, cs).
Proof. intros Hc. simpl. by rewrite take_ge, drop_ge. Qed.

Lemma getLinesChannel_loop_chunks (chunks : list (list ascii)) fuel str :
  Forall (λ chunk : list ascii, length chunk ≤ 8) chunks →
  length chunks < fuel →
  getLinesChannel_loop fuel chunks str
  = Some (drop_empty_last
            (split_from [LF] 0 (rev str) (concat (map upto_newline chunks)))).
Proof.
  intros Hchunks. revert fuel str.
  induction Hchunks as [|c cs Hc Hcs IH]; intros [|fuel] str Hfuel; simpl in Hfuel; try lia.
  - simpl. rewrite rev_involutive. by destruct str.
  - cbn [getLinesChannel_loop]. rewrite chunks_Read_8 by done.
    cbn [map concat]. unfold upto_newline at 1, bytes_IndexByte.
    destruct (bytes_Index c [LF]) as [i|] eqn:Hi.
    + rewrite IH by lia. simpl. apply Index_byte_Some in Hi as [Hc' Hi].
      assert (take (S i) c = take i c ++ [LF]) as ->.
      { rewrite Hc' at 1. rewrite (cons_middle LF), app_assoc.
        rewrite take_app_length'; [done|]. rewrite length_app, length_take. simpl.
        apply (f_equal length) in Hc'. rewrite length_app, length_take in Hc'. simpl in Hc'.
        lia. }
      rewrite <- app_assoc. simpl app. rewrite split_byte_app by done.
      rewrite rev_involutive, drop_empty_last_cons by apply split_byte_nonempty. done.
    + rewrite IH by lia. apply Index_byte_None in Hi.
      by rewrite split_byte_skip, rev_app_distr.
Qed.

(** X19: what [getLinesChannel] sends for a source that gives its bytes in
    reads of at most 8: the lines of the text made of each read up to its
    first line feed.  What a read holds after its first line feed is
    dropped: it is sliced off and never looked at again. *)
Theorem getLinesChannel_sends (chunks : list (list ascii)) (fuel : nat) :
  Forall (λ chunk : list ascii, length chunk ≤ 8) chunks →
  length chunks < fuel →
  getLinesChannel fuel chunks = Some (text_lines (concat (map upto_newline chunks))).
Proof. intros Hchunks Hfuel. by apply getLinesChannel_loop_chunks. Qed.

(** X20: when every line feed is the last byte of its read, nothing is
    dropped: [getLinesChannel] sends the lines of the text. *)
Theorem getLinesChannel_aligned (chunks : list (list ascii)) (fuel : nat) :
  Forall (λ chunk : list ascii, length chunk ≤ 8 ∧ upto_newline chunk = chunk) chunks →
  length chunks < fuel →
  getLinesChannel fuel chunks = Some (text_lines (concat chunks)).
Proof.
  intros Hchunks Hfuel. unfold getLinesChannel.
  assert (map upto_newline chunks = chunks) as Hmap.
  { clear Hfuel. induction Hchunks as [|chunk cs [_ Hc] _ IH]; [done|].
    simpl. by rewrite Hc, IH. }
  rewrite getLinesChannel_loop_chunks.
  - rewrite Hmap. reflexivity.
  - eapply Forall_impl; [exact Hchunks|]. by intros ? [? _].
  - exact Hfuel.
Qed.

End Lines.

Lemma getLinesChannel_no_LF_witness :
  Forall (λ line, LF ∉ line) [lit "ab"; lit "gh"].
Proof.
  apply (@getLinesChannel_no_LF _ chunkReader 10 [lit "ab\ncd\nef"; lit "gh"]).
  reflexivity.
Defined.

Lemma getLinesChannel_sends_witness :
  getLinesChannel 3 [lit "ab\ncd\nef"; lit "gh"]
  = Some (text_lines (concat (map upto_newline [lit "ab\ncd\nef"; lit "gh"]))).
Proof.
  apply getLinesChannel_sends.
  - repeat constructor.
  - simpl. lia.
Defined.

Lemma getLinesChannel_aligned_witness :
  getLinesChannel 4 [lit "Do you h"; lit "ear\n"; lit "me?"]
  = Some (text_lines (concat [lit "Do you h"; lit "ear\n"; lit "me?"])).
Proof.
  apply getLinesChannel_aligned.
  - repeat constructor.
  - simpl. lia.
Defined.

(** ** The hex printer *)

Section Hex.

Implicit Types bs out : list ascii.

Lemma toStr_foldl out bs :
  foldl (λ out b, out ++ Sprintf_02x b) out bs = out ++ toStr bs.
Proof.
  unfold toStr. revert out. induction bs as [|b bs IH]; intros out; simpl.
  - by rewrite app_nil_r.
  - rewrite IH, (IH (Sprintf_02x b)). by rewrite app_assoc.
Qed.

Lemma toStr_cons b bs : toStr (b :: bs) = Sprintf_02x b ++ toStr bs.
Proof. unfold toStr at 1. simpl. apply toStr_foldl. Qed.

Lemma Sprintf_02x_digits b :
  Forall (λ c, c ∈ lit "0123456789abcdef") (Sprintf_02x b).
Proof.
  destruct b as [[] [] [] [] [] [] [] []];
    repeat constructor; apply (bool_decide_unpack _); by vm_compute.
Qed.

Lemma unhex_Sprintf_02x b s : unhex (Sprintf_02x b ++ s) = b :: unhex s.
Proof. by destruct b as [[] [] [] [] [] [] [] []]. Qed.

(** X21: [toStr] prints two characters for each byte, all of them digits or
    letters [a] to [f]. *)
Theorem toStr_shape bs :
  length (toStr bs) = 2 * length bs
  ∧ Forall (λ c, c ∈ lit "0123456789abcdef") (toStr bs).
Proof.
  induction bs as [|b bs [IHlen IHall]]; [by split|].
  rewrite toStr_cons. split.
  - simpl. rewrite IHlen. lia.
  - apply Forall_app. split; [apply Sprintf_02x_digits|done].
Qed.

(** X22: [toStr] loses nothing: reading the digits back two by two gives
    the bytes that were printed, so two slices that print alike are the
    same. *)
Theorem toStr_unhex bs : unhex (toStr bs) = bs.
Proof.
  induction bs as [|b bs IH]; [done|].
  by rewrite toStr_cons, unhex_Sprintf_02x, IH.
Qed.

End Hex.
